(** * WsvReader: whitespace-separated values reader (wsvreader.py)

    A shallow embedding of the [WsvReader] class and of the parts of the
    Python runtime it relies on ([str.strip], [str.replace], the
    backtracking search of [re], text streams, [dict]), followed by the
    properties of the reader.

    Python strings are lists of characters; characters are the code points
    below 256.  A method that can raise returns an [outcome]; a method that
    mutates [self] also returns the reader it leaves behind. *)

From Stdlib Require Import Ascii String NArith Lia.
From stdpp Require Import base option list gmap sets strings pretty.

Open Scope char_scope.
Open Scope list_scope.
Open Scope nat_scope.

(** ** Strings, exceptions and outcomes *)

Abbreviation str := (list ascii).

(** A string literal as a Python string. *)
Definition py (s : string) : str := list_ascii_of_string s.

Inductive exception :=
| StopIteration
| ValueError
| IOError
| AssertionError
| IndexError
| AttributeError.

(** [OutOfFuel] is not a Python outcome: it marks a loop of the model that
    used up its step budget.  The totality lemmas below show that the
    budgets are large enough, so no method ever ends that way. *)
Inductive outcome (A : Type) :=
| Ok (a : A)
| Raise (e : exception)
| OutOfFuel.
Arguments Ok {A} a.
Arguments Raise {A} e.
Arguments OutOfFuel {A}.

Definition bind {A B} (o : outcome A) (k : A -> outcome B) : outcome B :=
  match o with
  | Ok a => k a
  | Raise e => Raise e
  | OutOfFuel => OutOfFuel
  end.

#[global] Instance outcome_bind : MBind outcome := fun A B k o => bind o k.
#[global] Instance outcome_ret : MRet outcome := fun A a => Ok a.

(** ** Characters and the [str] methods the reader calls *)

Definition dquote : ascii := ascii_of_nat 34.
Definition hash : ascii := "#".
Definition space : ascii := " ".

(** [str.isspace] on one character, which is also the class [\s] of a
    Unicode pattern: tab to carriage return, the four separators 28..31,
    the space, NEL (133) and the no-break space (160). *)
Definition isspace (c : ascii) : bool :=
  let n := N_of_ascii c in
  (((9 <=? n) && (n <=? 13)) || ((28 <=? n) && (n <=? 32))
   || (n =? 133) || (n =? 160))%N.

Fixpoint lstrip (s : str) : str :=
  match s with
  | [] => []
  | c :: s' => if isspace c then lstrip s' else s
  end.

Definition rstrip (s : str) : str := reverse (lstrip (reverse s)).

(** [line.strip()] *)
Definition strip (s : str) : str := rstrip (lstrip s).

(** [column.replace(QQ, Q)], where Q is the double quote character: left
    to right, occurrences do not overlap. *)
Fixpoint replace_dquotes (s : str) : str :=
  match s with
  | [] => []
  | c :: s' =>
      match s' with
      | c' :: s'' =>
          if Ascii.eqb c dquote && Ascii.eqb c' dquote
          then dquote :: replace_dquotes s''
          else c :: replace_dquotes s'
      | [] => [c]
      end
  end.

(** [column[1:-1]] *)
Definition slice_1_m1 (s : str) : str := removelast (tail s).

(** [line[a:b]] for [0 <= a] and [0 <= b] *)
Definition slice (a b : nat) (s : str) : str := take (b - a) (drop a s).

(** ** The pattern engine

    [re] is a backtracking matcher: alternatives are tried left to right, a
    star takes as many iterations as it can and gives them back one by one,
    and the continuation [k] decides whether what follows can still match.
    The first success is the match. *)

Inductive regex :=
| Chr (p : ascii -> bool)
| Cat (r1 r2 : regex)
| Alt (r1 r2 : regex)
| Star (r : regex).

(** A greedy star: [m] matches one iteration.  [n] bounds the number of
    iterations by the length of the text, since an iteration of the
    patterns used here takes at least one character. *)
Fixpoint star_loop (m : str -> (str -> option str) -> option str)
    (k : str -> option str) (n : nat) (s : str) : option str :=
  match n with
  | 0 => k s
  | S n' =>
      match m s (star_loop m k n') with
      | Some x => Some x
      | None => k s
      end
  end.

Fixpoint bt (r : regex) (s : str) (k : str -> option str) : option str :=
  match r with
  | Chr p =>
      match s with
      | c :: s' => if p c then k s' else None
      | [] => None
      end
  | Cat r1 r2 => bt r1 s (fun s1 => bt r2 s1 k)
  | Alt r1 r2 =>
      match bt r1 s k with
      | Some x => Some x
      | None => bt r2 s k
      end
  | Star r1 => star_loop (bt r1) k (length s) s
  end.

(** [pattern.match] at the head of [s]: what is left after the match. *)
Definition re_match (r : regex) (s : str) : option str := bt r s Some.

(** The scan of [pattern.search]: [s] is the text from [start] on; the
    result is [(match.start(), match.end())] of the leftmost match. *)
Fixpoint search_at (r : regex) (s : str) (start : nat) : option (nat * nat) :=
  match re_match r s with
  | Some rest => Some (start, start + (length s - length rest))
  | None =>
      match s with
      | [] => None
      | _ :: s' => search_at r s' (S start)
      end
  end.

(** [pattern.search(line, pos=pos)] *)
Definition re_search (r : regex) (line : str) (pos : nat) : option (nat * nat) :=
  search_at r (drop pos line) pos.

Definition ws : regex := Chr isspace.
Definition not_dquote : regex := Chr (fun c => negb (Ascii.eqb c dquote)).
Definition is_dquote : regex := Chr (fun c => Ascii.eqb c dquote).
Definition bare_char : regex :=
  Chr (fun c => negb (Ascii.eqb c dquote) && negb (isspace c)).

(** The first alternative of group 1: any run of characters that are
    neither a double quote nor white space. *)
Definition bare : regex := Star bare_char.

(** The second alternative of group 1: a double quote, any number of
    items that are each a character other than the double quote or two
    double quotes, and a double quote. *)
Definition quoted : regex :=
  Cat is_dquote (Cat (Star (Alt not_dquote (Cat is_dquote is_dquote))) is_dquote).

(** [self.findre]: white space, group 1, white space. *)
Definition findre : regex := Cat ws (Cat (Alt bare quoted) ws).

(** ** WsvReader.unquote and WsvReader.split_line *)

Definition unquote (column : str) : outcome str :=
  match column with
  | [] => Raise IndexError
  | c :: _ =>
      if Ascii.eqb c dquote then
        match last column with
        | Some c' =>
            if Ascii.eqb c' dquote
            then Ok (replace_dquotes (slice_1_m1 column))
            else Raise AssertionError
        | None => Raise IndexError
        end
      else Ok column
  end.

(** The [while True] loop of [split_line].  Group 1 of a match is the match
    without its first and last character, because each [\s] of [findre]
    takes exactly one.  The callback stands for [self.unquote].  [fuel]
    bounds the iterations; every iteration moves [pos] to the right, so
    the length of the line plus one is enough ([split_loop_fuel]). *)
Fixpoint split_loop (unq : str -> outcome str) (fuel : nat)
    (line : str) (pos : nat) (columns : list str) : outcome (list str) :=
  match fuel with
  | 0 => OutOfFuel
  | S fuel' =>
      match re_search findre line pos with
      | None => Ok columns
      | Some (mstart, mend) =>
          let value := slice (S mstart) (mend - 1) line in
          columns' ← match value with
                      | [] => Ok columns
                      | _ :: _ => v ← unq value; Ok (columns ++ [v])
                      end;
          split_loop unq fuel' line (mend - 1) columns'
      end
  end.

Definition split_line_with (unq : str -> outcome str) (line : str)
    : outcome (list str) :=
  let line := [space] ++ line ++ [space] in
  split_loop unq (S (length line)) line 0 [].

Definition split_line (line : str) : outcome (list str) :=
  split_line_with unquote line.

(** The arguments [split_line] hands to [self.unquote], in call order: the
    loop run with a callback that returns its argument. *)
Definition unquote_calls (line : str) : outcome (list str) :=
  split_line_with Ok line.

(** ** Text streams and dictionaries *)

(** A text stream: the lines it holds, the lines not read yet, and whether
    [seek] works on it.  [StringIO(text)] and [open(name)] start with
    [remaining = content]; a pipe is not seekable. *)
Record stream := Stream {
  content : list str;
  remaining : list str;
  seekable : bool
}.

(** [file.seek(0)]; a stream that cannot seek raises [IOError]. *)
Definition seek0 (f : stream) : outcome stream :=
  if seekable f
  then Ok {| content := content f; remaining := content f; seekable := true |}
  else Raise IOError.

(** The builtin [dict] applied to an iterable of pairs: inserted in order,
    a later pair replaces an earlier one with the same key. *)
Definition py_dict (pairs : list (str * str)) : gmap str str :=
  foldl (fun m p => <[p.1 := p.2]> m) ∅ pairs.

(** ** The reader object *)

(** [fileiter] and [columnnames] are attributes that [__init__] does not
    set; [iter(self.file)] is the stream itself, so [fileiter] only records
    that the attribute is bound. *)
Record WsvReader (D : Type) := Reader {
  file : stream;
  need_seek : bool;
  dict : list (str * str) -> D;
  fileiter : bool;
  columnnames : option (list str)
}.
Arguments Reader {D}.
Arguments file {D}.
Arguments need_seek {D}.
Arguments dict {D}.
Arguments fileiter {D}.
Arguments columnnames {D}.

Definition __init__ {D} (f : stream) (d : list (str * str) -> D) : WsvReader D :=
  {| file := f; need_seek := false; dict := d;
     fileiter := false; columnnames := None |}.

Definition set_remaining {D} (r : WsvReader D) (ls : list str) : WsvReader D :=
  {| file := {| content := content (file r); remaining := ls;
                seekable := seekable (file r) |};
     need_seek := need_seek r; dict := dict r;
     fileiter := fileiter r; columnnames := columnnames r |}.

Definition set_columnnames {D} (r : WsvReader D) (names : list str) : WsvReader D :=
  {| file := file r; need_seek := need_seek r; dict := dict r;
     fileiter := fileiter r; columnnames := Some names |}.

(** The [for line in self.fileiter] loop of [get_line], on the lines not
    read yet: the line found, and the lines left after it. *)
Fixpoint get_line_loop (lines : list str) : outcome str * list str :=
  match lines with
  | [] => (Raise StopIteration, [])
  | line :: rest =>
      let line := strip line in
      match line with
      | [] => get_line_loop rest
      | c :: _ =>
          if Ascii.eqb c hash then get_line_loop rest else (Ok line, rest)
      end
  end.

Definition get_line {D} (r : WsvReader D) : outcome str * WsvReader D :=
  if fileiter r then
    let (o, rest) := get_line_loop (remaining (file r)) in
    (o, set_remaining r rest)
  else (Raise AttributeError, r).

(** ['extra%d' % (i,)] *)
Definition extra_columnname (i : nat) : str := py "extra" ++ py (pretty i).

(** The [while len(columns) > len(self.columnnames)] loop of [__next__].
    [fuel] bounds the iterations; the loop stops before [i] reaches the
    number of columns ([extend_loop_spec]). *)
Fixpoint extend_loop (fuel : nat) (ncolumns : nat) (i : nat)
    (names : list str) : outcome (list str) :=
  if decide (length names < ncolumns) then
    match fuel with
    | 0 => OutOfFuel
    | S fuel' =>
        let extra := extra_columnname i in
        if decide (extra ∈ names)
        then extend_loop fuel' ncolumns (S i) names
        else extend_loop fuel' ncolumns (S i) (names ++ [extra])
    end
  else Ok names.

Definition extend_columnnames (ncolumns : nat) (names : list str)
    : outcome (list str) :=
  extend_loop ncolumns ncolumns 0 names.

Definition read_header {D} (r : WsvReader D) : outcome unit * WsvReader D :=
  let (o, r1) := get_line r in
  match o with
  | Ok line =>
      match split_line line with
      | Ok names =>
          let r2 := set_columnnames r1 names in
          if decide (length names ≠ size (list_to_set names : gset str))
          then (Raise ValueError, r2)
          else (Ok (), r2)
      | Raise e => (Raise e, r1)
      | OutOfFuel => (OutOfFuel, r1)
      end
  | Raise e => (Raise e, r1)
  | OutOfFuel => (OutOfFuel, r1)
  end.

Definition __iter__ {D} (r : WsvReader D) : outcome unit * WsvReader D :=
  match (if need_seek r then seek0 (file r) else Ok (file r)) with
  | Ok f =>
      read_header {| file := f; need_seek := true; dict := dict r;
                     fileiter := true; columnnames := columnnames r |}
  | Raise e => (Raise e, r)
  | OutOfFuel => (OutOfFuel, r)
  end.

Definition __next__ {D} (r : WsvReader D) : outcome D * WsvReader D :=
  let (o, r1) := get_line r in
  match o with
  | Ok line =>
      match split_line line with
      | Ok columns =>
          match columnnames r1 with
          | Some names =>
              match extend_columnnames (length columns) names with
              | Ok names' =>
                  (Ok (dict r1 (zip names' columns)), set_columnnames r1 names')
              | Raise e => (Raise e, r1)
              | OutOfFuel => (OutOfFuel, r1)
              end
          | None => (Raise AttributeError, r1)
          end
      | Raise e => (Raise e, r1)
      | OutOfFuel => (OutOfFuel, r1)
      end
  | Raise e => (Raise e, r1)
  | OutOfFuel => (OutOfFuel, r1)
  end.

(** ** One pass: [[i for i in reader]]

    [iter(reader)] runs [__iter__]; the loop then calls [__next__] until it
    raises [StopIteration], which ends the pass; any other exception leaves
    the loop.  [fuel] bounds the calls of [__next__]; each call that
    returns a row reads at least one line ([collect_rows]). *)
Fixpoint collect {D} (fuel : nat) (r : WsvReader D) (acc : list D)
    : outcome (list D) * WsvReader D :=
  match fuel with
  | 0 => (OutOfFuel, r)
  | S fuel' =>
      let (o, r1) := __next__ r in
      match o with
      | Ok row => collect fuel' r1 (acc ++ [row])
      | Raise StopIteration => (Ok acc, r1)
      | Raise e => (Raise e, r1)
      | OutOfFuel => (OutOfFuel, r1)
      end
  end.

Definition list_of {D} (r : WsvReader D) : outcome (list D) * WsvReader D :=
  let (o, r1) := __iter__ r in
  match o with
  | Ok _ => collect (S (length (remaining (file r1)))) r1 []
  | Raise e => (Raise e, r1)
  | OutOfFuel => (OutOfFuel, r1)
  end.

(** [StringIO(text)], given as the lines of [text]. *)
Definition StringIO (lines : list str) : stream :=
  {| content := lines; remaining := lines; seekable := true |}.

(** [NoSeekStringIO(text)] of the test suite: [seek] raises [IOError]. *)
Definition NoSeekStringIO (lines : list str) : stream :=
  {| content := lines; remaining := lines; seekable := false |}.

(** * Vocabulary of the properties *)

(** The words a pattern matches. *)
Inductive lang : regex -> str -> Prop :=
| lang_chr p c : p c = true -> lang (Chr p) [c]
| lang_cat r1 r2 w1 w2 :
    lang r1 w1 -> lang r2 w2 -> lang (Cat r1 r2) (w1 ++ w2)
| lang_alt_l r1 r2 w : lang r1 w -> lang (Alt r1 r2) w
| lang_alt_r r1 r2 w : lang r2 w -> lang (Alt r1 r2) w
| lang_star_nil r : lang (Star r) []
| lang_star_cons r w1 w2 :
    lang r w1 -> lang (Star r) w2 -> lang (Star r) (w1 ++ w2).

(** The least number of characters a match takes, capped at one. *)
Fixpoint width (r : regex) : nat :=
  match r with
  | Chr _ => 1
  | Cat r1 r2 => width r1 `max` width r2
  | Alt r1 r2 => width r1 `min` width r2
  | Star _ => 0
  end.

(** What group 1 of [findre] can hold: a run of characters that are neither
    double quotes nor white space, or a text delimited by double quotes. *)
Definition bare_token (t : str) : Prop :=
  Forall (fun c => c <> dquote /\ isspace c = false) t.

(** A text between two double quotes. *)
Definition quoted_token (t : str) : Prop :=
  exists body, t = dquote :: body ++ [dquote].

(** What [unquote] relies on: the token is not empty, and one that starts
    with a double quote ends with one. *)
Definition token_ok (t : str) : Prop :=
  t <> [] /\ (head t = Some dquote -> last t = Some dquote).

(** [k] is the smallest integer whose synthetic name is not in [names]. *)
Definition is_least_unused (names : list str) (k : nat) : Prop :=
  (extra_columnname k ∉ names) /\
  (forall j, j < k -> extra_columnname j ∈ names).

(** [fills_smallest names added]: the names [added] were appended to
    [names] one at a time, each being the synthetic name with the smallest
    integer not in the list at that moment. *)
Inductive fills_smallest : list str -> list str -> Prop :=
| fills_nil names : fills_smallest names []
| fills_cons names k added :
    is_least_unused names k ->
    fills_smallest (names ++ [extra_columnname k]) added ->
    fills_smallest names (extra_columnname k :: added).

(** A line is significant when it has a first character that is not white
    space, and that character is not the comment marker. *)
Definition significant (line : str) : bool :=
  match head (lstrip line) with
  | Some c => negb (Ascii.eqb c hash)
  | None => false
  end.

(** The significant lines of a text, trimmed, in order. *)
Definition significant_lines (lines : list str) : list str :=
  map strip (List.filter significant lines).

(** The reader is the same object: only the read position and the column
    names may differ. *)
Definition same_object {D} (r r' : WsvReader D) : Prop :=
  content (file r') = content (file r) /\
  seekable (file r') = seekable (file r) /\
  dict r' = dict r /\
  need_seek r' = need_seek r /\
  fileiter r' = fileiter r.

(** The reader as [__iter__] hands it to [read_header], reading [f]. *)
Definition started {D} (r : WsvReader D) (f : stream) : WsvReader D :=
  {| file := f; need_seek := true; dict := dict r;
     fileiter := true; columnnames := columnnames r |}.

(** The stream after a successful [seek(0)]. *)
Definition rewound (f : stream) : stream :=
  {| content := content f; remaining := content f; seekable := true |}.

(** The lines a pass started on [r] reads. *)
Definition pass_input {D} (r : WsvReader D) : list str :=
  if need_seek r then content (file r) else remaining (file r).

(** The rows of a pass as a function of its significant lines: what
    [__next__] returns for each line, with the column names threaded
    through. *)
Fixpoint rows_of {D} (d : list (str * str) -> D) (names : list str)
    (lines : list str) : outcome (list D) :=
  match lines with
  | [] => Ok []
  | line :: lines' =>
      columns ← split_line line;
      names' ← extend_columnnames (length columns) names;
      rows ← rows_of d names' lines';
      Ok (d (zip names' columns) :: rows)
  end.

(** The outcome of a pass as a function of its significant lines: the
    first one is the header. *)
Definition pass_rows {D} (d : list (str * str) -> D) (lines : list str)
    : outcome (list D) :=
  match lines with
  | [] => Raise StopIteration
  | header :: lines' =>
      names ← split_line header;
      if decide (NoDup names) then rows_of d names lines'
      else Raise ValueError
  end.

(** The reader after [n] passes, each run to its end. *)
Definition passes {D} (n : nat) (r : WsvReader D) : WsvReader D :=
  Nat.iter n (fun r' => snd (list_of r')) r.

(** A text is well formed when it has a header, the first significant
    line, and the names on it are pairwise distinct. *)
Definition well_formed (lines : list str) : Prop :=
  exists header rest names,
    List.filter significant lines = header :: rest /\
    split_line (strip header) = Ok names /\ NoDup names.

(** A value written as the body of a quoted field: every double quote is
    doubled. *)
Fixpoint escape (v : str) : str :=
  match v with
  | [] => []
  | c :: v' =>
      if Ascii.eqb c dquote then dquote :: dquote :: escape v'
      else c :: escape v'
  end.

(** A line of a text file: [s] followed by a newline. *)
Definition nl (s : str) : str := s ++ [ascii_of_nat 10].

(** [s] between double quotes. *)
Definition quote (s : str) : str := [dquote] ++ s ++ [dquote].

(** A reader in the middle of a pass over a seekable stream: [names] are
    its column names and [lines] are still to be read. *)
Definition reading {D} (d : list (str * str) -> D) (names : list str)
    (lines : list str) : WsvReader D :=
  {| file := {| content := lines; remaining := lines; seekable := true |};
     need_seek := true; dict := d; fileiter := true;
     columnnames := Some names |}.

(** The text of [test_too_many_values], line by line. *)
Definition too_many_values : list str :=
  [ nl [];
    nl (py "                col1 extra1 col3");
    nl (py "                d1 d2 d3");
    nl (py "                d1 d2 d3 d4 d5 d6");
    nl (py "                d1 d2 d3 d4");
    py "            " ].

(** The stream [f] as it would be if [seek] worked on it. *)
Definition seekable_twin (f : stream) : stream :=
  {| content := content f; remaining := remaining f; seekable := true |}.

(** The text of [test_blanks_and_comments], line by line. *)
Definition blanks_and_comments : list str :=
  [ nl [];
    nl (py "                1st 2nd 3rd");
    nl [];
    nl (py "                # this is a comment");
    nl (py "                more #data #ok");
    nl [];
    nl (py "                " ++ quote (py "#more") ++ py " data #ok");
    py "            " ].

(** ** Vocabulary of the further properties *)

(** One item inside a quoted field: a character other than the double
    quote, or two double quotes. *)
Definition quoted_item : regex := Alt not_dquote (Cat is_dquote is_dquote).

(** [written tok v]: the field [tok] is a way to write the value [v],
    either as it is, when it is not empty and holds neither a double quote
    nor white space, or between double quotes with its double quotes
    doubled. *)
Inductive written : str -> str -> Prop :=
| written_bare v : v <> [] -> bare_token v -> written v v
| written_quoted v : written (quote (escape v)) v.

(** [wsv_line line vs]: the line is made of white space and of fields that
    write the values [vs], with white space between two fields. *)
Inductive wsv_line : str -> list str -> Prop :=
| wsv_empty : wsv_line [] []
| wsv_space c line vs :
    isspace c = true -> wsv_line line vs -> wsv_line (c :: line) vs
| wsv_last tok v : written tok v -> wsv_line tok [v]
| wsv_field tok v c line vs :
    written tok v -> isspace c = true -> wsv_line line vs ->
    wsv_line (tok ++ c :: line) (v :: vs).

(** The same after a white space character, for a text that ends with
    one. *)
Inductive wsv_tail : str -> list str -> Prop :=
| tail_end : wsv_tail [] []
| tail_space c s vs :
    isspace c = true -> wsv_tail s vs -> wsv_tail (c :: s) vs
| tail_field tok v c s vs :
    written tok v -> isspace c = true -> wsv_tail s vs ->
    wsv_tail (tok ++ c :: s) (v :: vs).

(** The reader after [k] more calls of [__next__], whatever they return. *)
Definition nexts {D} (k : nat) (r : WsvReader D) : WsvReader D :=
  Nat.iter k (fun r' => snd (__next__ r')) r.

(** The first [i] synthetic names. *)
Definition extras (i : nat) : list str := extra_columnname <$> seq 0 i.

(** A writer for the format: every value between double quotes with its
    double quotes doubled, one space between two fields. *)
Fixpoint write_line (vs : list str) : str :=
  match vs with
  | [] => []
  | v :: vs' =>
      match vs' with
      | [] => quote (escape v)
      | _ :: _ => quote (escape v) ++ space :: write_line vs'
      end
  end.

(** The written line followed by a newline. *)
Definition write_row (vs : list str) : str := nl (write_line vs).

Definition newline : ascii := ascii_of_nat 10.

(** The lines a [StringIO] yields for a text: a line ends after each
    newline, and what follows the last newline is a line when it is not
    empty. *)
Fixpoint text_lines (text : str) : list str :=
  match text with
  | [] => []
  | c :: text' =>
      if Ascii.eqb c newline then [c] :: text_lines text'
      else match text_lines text' with
           | [] => [[c]]
           | line :: lines => (c :: line) :: lines
           end
  end.

(** A seekable stream of three lines of which the first was read before
    the reader got it. *)
Definition partly_read_stream : stream :=
  {| content := [nl (py "a b"); nl (py "c d"); nl (py "1 2")];
     remaining := [nl (py "c d"); nl (py "1 2")];
     seekable := true |}.

(** * Properties *)

(** ** The pattern engine only returns matches of the pattern *)

#[local] Hint Constructors lang : core.

Lemma star_loop_sound r m :
  (forall s k x, m s k = Some x ->
     exists w s1, s = w ++ s1 /\ lang r w /\ k s1 = Some x) ->
  forall n s k x, star_loop m k n s = Some x ->
    exists w s1, s = w ++ s1 /\ lang (Star r) w /\ k s1 = Some x.
Proof.
  intros Hm n. induction n as [|n IH]; intros s k x H; simpl in H.
  - exists [], s. auto.
  - destruct (m s (star_loop m k n)) as [y|] eqn:E.
    + inversion H; subst y; clear H.
      apply Hm in E as (w1 & s1 & -> & Hw1 & E).
      apply IH in E as (w2 & s2 & -> & Hw2 & E).
      exists (w1 ++ w2), s2. rewrite <- app_assoc. auto.
    + exists [], s. auto.
Qed.

Lemma bt_sound r : forall s k x,
  bt r s k = Some x ->
  exists w s1, s = w ++ s1 /\ lang r w /\ k s1 = Some x.
Proof.
  induction r as [p|r1 IH1 r2 IH2|r1 IH1 r2 IH2|r IH]; intros s k x H; simpl in H.
  - destruct s as [|c s']; [discriminate|].
    destruct (p c) eqn:Hp; [|discriminate].
    exists [c], s'. auto.
  - apply IH1 in H as (w1 & s1 & -> & Hw1 & H).
    apply IH2 in H as (w2 & s2 & -> & Hw2 & H).
    exists (w1 ++ w2), s2. rewrite <- app_assoc. auto.
  - destruct (bt r1 s k) as [y|] eqn:E.
    + inversion H; subst y. apply IH1 in E as (w & s1 & -> & Hw & E).
      exists w, s1. auto.
    + apply IH2 in H as (w & s1 & -> & Hw & E').
      exists w, s1. auto.
  - eapply star_loop_sound in H as (w & s1 & -> & Hw & H); eauto.
Qed.

Lemma re_match_sound r s rest :
  re_match r s = Some rest -> exists w, s = w ++ rest /\ lang r w.
Proof.
  intros H. apply bt_sound in H as (w & s1 & -> & Hw & H).
  inversion H; subst. eauto.
Qed.

Lemma search_at_sound r : forall s start ms me,
  search_at r s start = Some (ms, me) ->
  exists k w, k <= length s /\ ms = start + k /\ me = ms + length w /\
    lang r w /\ take (length w) (drop k s) = w /\
    ms + length w <= start + length s.
Proof.
  induction s as [|c s IH]; intros start ms me H; simpl in H.
  - destruct (re_match r []) as [rest|] eqn:E; [|discriminate].
    inversion H; subst; clear H.
    apply re_match_sound in E as (w & Hs & Hw).
    symmetry in Hs. apply app_eq_nil in Hs as [-> ->].
    exists 0, []. simpl. repeat split; auto; lia.
  - destruct (re_match r (c :: s)) as [rest|] eqn:E.
    + inversion H; subst; clear H.
      apply re_match_sound in E as (w & Hs & Hw).
      assert (Hl : S (length s) = length w + length rest).
      { change (S (length s)) with (length (c :: s)).
        by rewrite Hs, length_app. }
      exists 0, w. rewrite Hs, drop_0, take_app_length, length_app.
      repeat split; auto; lia.
    + apply IH in H as (k & w & Hk & -> & -> & Hw & Ht & Hle).
      exists (S k), w. simpl. repeat split; auto; lia.
Qed.

(** *** The bound on the iterations of a star is never what stops it *)

Lemma bt_ext r : forall s k k',
  (forall s1, length s1 + width r <= length s -> k s1 = k' s1) ->
  bt r s k = bt r s k'.
Proof.
  induction r as [p|r1 IH1 r2 IH2|r1 IH1 r2 IH2|r IH]; intros s k k' H; simpl.
  - destruct s as [|c s']; [done|]. destruct (p c); [|done].
    apply H. simpl. lia.
  - apply IH1. intros s1 H1. apply IH2. intros s2 H2. apply H. simpl. lia.
  - rewrite (IH1 s k k') by (intros s1 H1; apply H; simpl; lia).
    rewrite (IH2 s k k') by (intros s1 H1; apply H; simpl; lia). done.
  - simpl in H. generalize (length s) as n. intros n. revert s H.
    induction n as [|n IHn]; intros s H; simpl; [apply H; lia|].
    rewrite (IH s (star_loop (bt r) k n) (star_loop (bt r) k' n)).
    + rewrite (H s) by lia. done.
    + intros s1 H1. apply IHn. intros s2 H2. apply H. lia.
Qed.

Lemma bt_no_continuation r : forall s, bt r s (fun _ => None) = None.
Proof.
  induction r as [p|r1 IH1 r2 IH2|r1 IH1 r2 IH2|r IH]; intros s; simpl.
  - destruct s as [|c s']; [done|]. by destruct (p c).
  - rewrite (bt_ext r1 s _ (fun _ => None)); [apply IH1|].
    intros s1 _. apply IH2.
  - by rewrite IH1, IH2.
  - generalize (length s) as n. intros n. revert s.
    induction n as [|n IHn]; intros s; simpl; [done|].
    rewrite (bt_ext r s _ (fun _ => None)); [by rewrite IH|].
    intros s1 _. apply IHn.
Qed.

Lemma bt_nil r k : width r = 1 -> bt r [] k = None.
Proof.
  intros Hw. rewrite (bt_ext r [] k (fun _ => None));
    [apply bt_no_continuation|].
  intros s1 H. simpl in H. lia.
Qed.

(** When an iteration takes at least one character, a star that is allowed
    more iterations than the text has characters matches the same. *)
Lemma star_loop_fuel r k : width r = 1 -> forall n s,
  length s <= n ->
  star_loop (bt r) k (S n) s = star_loop (bt r) k n s.
Proof.
  intros Hw. induction n as [|n IHn]; intros s Hlen.
  - destruct s as [|c s]; [|simpl in Hlen; lia].
    simpl. by rewrite bt_nil.
  - change (star_loop (bt r) k (S (S n)) s)
      with (match bt r s (star_loop (bt r) k (S n)) with
            | Some x => Some x
            | None => k s
            end).
    rewrite (bt_ext r s _ (star_loop (bt r) k n)); [done|].
    intros s1 H1. apply IHn. lia.
Qed.

Lemma star_fuel_enough r k s n :
  width r = 1 -> length s <= n -> star_loop (bt r) k n s = bt (Star r) s k.
Proof.
  intros Hw. simpl. induction 1 as [|n Hle IH]; [done|].
  by rewrite star_loop_fuel.
Qed.

(** Both stars of [findre] iterate over items of at least one character. *)
Lemma findre_stars_consume :
  width bare_char = 1 /\
  width (Alt not_dquote (Cat is_dquote is_dquote)) = 1.
Proof. by split. Qed.

Lemma lang_chr_inv p w : lang (Chr p) w -> exists c, w = [c] /\ p c = true.
Proof. inversion 1; subst; eauto. Qed.

Lemma lang_cat_inv r1 r2 w :
  lang (Cat r1 r2) w ->
  exists w1 w2, w = w1 ++ w2 /\ lang r1 w1 /\ lang r2 w2.
Proof. inversion 1; subst; eauto. Qed.

Lemma lang_alt_inv r1 r2 w : lang (Alt r1 r2) w -> lang r1 w \/ lang r2 w.
Proof. inversion 1; subst; auto. Qed.

Lemma lang_bare w : lang bare w -> bare_token w.
Proof.
  unfold bare. remember (Star bare_char) as r eqn:Hr. intros H.
  induction H as [| | | | |r' w1 w2 H1 _ _ IH]; try discriminate.
  - constructor.
  - injection Hr as ->. apply Forall_app. split; [|by apply IH].
    apply lang_chr_inv in H1 as (c & -> & Hc).
    apply andb_true_iff in Hc as [Hq Hs].
    apply negb_true_iff in Hq, Hs.
    constructor; [|constructor]. split; [|done].
    intros ->. by rewrite Ascii.eqb_refl in Hq.
Qed.

Lemma lang_is_dquote w : lang is_dquote w -> w = [dquote].
Proof.
  intros H. apply lang_chr_inv in H as (c & -> & Hc).
  by apply Ascii.eqb_eq in Hc as ->.
Qed.

Lemma lang_quoted w : lang quoted w -> quoted_token w.
Proof.
  intros H. apply lang_cat_inv in H as (w1 & w' & -> & H1 & H).
  apply lang_cat_inv in H as (body & w2 & -> & _ & H2).
  apply lang_is_dquote in H1 as ->. apply lang_is_dquote in H2 as ->.
  by exists body.
Qed.

Lemma lang_findre w :
  lang findre w ->
  exists c1 g c2, w = c1 :: g ++ [c2] /\ isspace c1 = true /\
    isspace c2 = true /\ (bare_token g \/ quoted_token g).
Proof.
  intros H. apply lang_cat_inv in H as (w1 & w' & -> & H1 & H).
  apply lang_cat_inv in H as (g & w2 & -> & Hg & H2).
  apply lang_chr_inv in H1 as (c1 & -> & Hc1).
  apply lang_chr_inv in H2 as (c2 & -> & Hc2).
  exists c1, g, c2. repeat split; auto.
  apply lang_alt_inv in Hg as [Hg|Hg];
    [left; by apply lang_bare|right; by apply lang_quoted].
Qed.

(** A match found by [findre.search(line, pos)] starts at or after [pos],
    is at least two characters long, lies inside the line, and its group 1
    is a bare or a quoted token. *)
Lemma re_search_findre line pos ms me :
  re_search findre line pos = Some (ms, me) ->
  pos <= ms /\ ms + 2 <= me /\ me <= length line /\
  (bare_token (slice (S ms) (me - 1) line) \/
   quoted_token (slice (S ms) (me - 1) line)).
Proof.
  unfold re_search. intros H.
  apply search_at_sound in H as (k & w & Hk & -> & -> & Hw & Ht & Hle).
  apply lang_findre in Hw as (c1 & g & c2 & -> & Hc1 & Hc2 & Hg).
  rewrite length_drop in Hk, Hle. simpl in *. rewrite length_app in *. simpl in *.
  assert (Hlen : pos + k + S (length g + 1) <= length line).
  { destruct (decide (pos <= length line)); [lia|].
    rewrite drop_ge in Ht by lia. by destruct k. }
  repeat split; try lia.
  assert (Hs : slice (S (pos + k)) (pos + k + S (length g + 1) - 1) line = g).
  { unfold slice. rewrite drop_drop in Ht.
    replace (pos + k + S (length g + 1) - 1 - S (pos + k)) with (length g) by lia.
    replace (S (pos + k)) with (pos + k + 1) by lia.
    rewrite <- drop_drop.
    destruct (drop (pos + k) line) as [|c l] eqn:E; [done|].
    simpl in Ht. injection Ht as -> Ht. simpl. rewrite drop_0.
    apply (f_equal (take (length g))) in Ht.
    rewrite take_take, take_app_length in Ht.
    by replace (length g `min` (length g + 1)) with (length g) in Ht by lia. }
  by rewrite Hs.
Qed.

(** ** The tokenizer *)

Lemma bare_token_ok t : t <> [] -> bare_token t -> token_ok t.
Proof.
  intros Hne Hb. split; [done|].
  destruct t as [|c t]; [done|]. simpl. intros [= ->].
  apply Forall_cons in Hb as [[Hc _] _]. done.
Qed.

Lemma quoted_token_ok t : quoted_token t -> token_ok t.
Proof.
  intros [body ->]. split; [done|]. intros _.
  by rewrite last_cons, last_snoc.
Qed.

Lemma unquote_token_ok t : token_ok t -> exists v, unquote t = Ok v.
Proof.
  intros [Hne Hq]. destruct t as [|c t]; [done|].
  unfold unquote. destruct (Ascii.eqb c dquote) eqn:E; [|eauto].
  apply Ascii.eqb_eq in E as ->. rewrite Hq by done.
  rewrite Ascii.eqb_refl. eauto.
Qed.

Lemma mapM_Ok_id (l : list str) : mapM (M := outcome) Ok l = Ok l.
Proof. induction l as [|x l IH]; [done|]. simpl. by rewrite IH. Qed.

Lemma mapM_all_Ok (f : str -> outcome str) (l : list str) :
  Forall (fun t => exists v, f t = Ok v) l ->
  exists vs, mapM f l = Ok vs /\ length vs = length l.
Proof.
  induction 1 as [|t l [v Hv] _ (vs & IH & Hlen)]; [by exists []|].
  exists (v :: vs). simpl. rewrite Hv. simpl. rewrite IH. simpl.
  by rewrite Hlen.
Qed.

(** With enough fuel the loop ends, and it behaves as follows: it finds
    the tokens [toks], each fit for [unquote], and applies the callback to
    them from left to right, stopping at the first one that raises. *)
Lemma split_loop_tokens line : forall fuel pos,
  length line - pos < fuel ->
  exists toks, Forall token_ok toks /\
    forall unq cols,
      split_loop unq fuel line pos cols
      = (vs ← mapM unq toks; Ok (cols ++ vs)).
Proof.
  induction fuel as [|fuel IH]; intros pos Hfuel; [lia|].
  simpl. destruct (re_search findre line pos) as [[ms me]|] eqn:E.
  - apply re_search_findre in E as (Hpos & Hlen & Hend & Hshape).
    destruct (IH (me - 1)) as (toks & Hok & Hrun); [lia|].
    destruct (slice (S ms) (me - 1) line) as [|c v] eqn:Ev.
    + exists toks. split; [done|]. intros unq cols. simpl. apply Hrun.
    + exists ((c :: v) :: toks). split.
      * constructor; [|done].
        destruct Hshape as [Hb|Hq];
          [by apply bare_token_ok|by apply quoted_token_ok].
      * intros unq cols. simpl.
        destruct (unq (c :: v)) as [y| |]; simpl; [|done|done].
        rewrite Hrun.
        destruct (mapM unq toks) as [ys| |]; simpl; [|done|done].
        by rewrite <- app_assoc.
  - exists []. split; [constructor|]. intros unq cols. simpl.
    by rewrite app_nil_r.
Qed.

Lemma split_loop_fuel unq line : forall fuel pos cols,
  length line - pos < fuel ->
  split_loop unq (S fuel) line pos cols = split_loop unq fuel line pos cols.
Proof.
  induction fuel as [|fuel IH]; intros pos cols Hfuel; [lia|].
  change (split_loop unq (S (S fuel)) line pos cols)
    with (match re_search findre line pos with
          | None => Ok cols
          | Some (mstart, mend) =>
              columns' ← match slice (S mstart) (mend - 1) line with
                          | [] => Ok cols
                          | _ :: _ =>
                              v ← unq (slice (S mstart) (mend - 1) line);
                              Ok (cols ++ [v])
                          end;
              split_loop unq (S fuel) line (mend - 1) columns'
          end).
  simpl. destruct (re_search findre line pos) as [[ms me]|] eqn:E; [|done].
  apply re_search_findre in E as (Hpos & Hlen & Hend & _).
  destruct (match slice (S ms) (me - 1) line with
            | [] => Ok cols
            | _ :: _ => _
            end) as [cols'| |]; simpl; [|done|done].
  apply IH. lia.
Qed.

Lemma split_line_with_tokens line :
  exists toks, Forall token_ok toks /\
    forall unq, split_line_with unq line = mapM unq toks.
Proof.
  unfold split_line_with.
  destruct (split_loop_tokens ([space] ++ line ++ [space])
              (S (length ([space] ++ line ++ [space]))) 0)
    as (toks & Hok & Hrun); [lia|].
  exists toks. split; [done|]. intros unq. rewrite Hrun.
  by destruct (mapM unq toks).
Qed.

(** [split_line] returns on every line: there is no raising path in it. *)
Lemma split_line_total line : exists columns, split_line line = Ok columns.
Proof.
  destruct (split_line_with_tokens line) as (toks & Hok & Hrun).
  unfold split_line. rewrite Hrun.
  destruct (mapM_all_Ok unquote toks) as (vs & Hvs & _); [|eauto].
  eapply Forall_impl; [exact Hok|]. apply unquote_token_ok.
Qed.

(** ** Growing the column names *)

Lemma py_inj s1 s2 : py s1 = py s2 -> s1 = s2.
Proof.
  unfold py. intros H. apply (f_equal string_of_list_ascii) in H.
  by rewrite !string_of_list_ascii_of_string in H.
Qed.

Lemma extra_columnname_inj i j :
  extra_columnname i = extra_columnname j -> i = j.
Proof.
  unfold extra_columnname. intros H. apply app_inv_head in H.
  apply py_inj in H. by apply (inj pretty) in H.
Qed.

(** Once the names of all integers below [i] are in the list, the list has
    at least [i] entries. *)
Lemma extras_below_length (names : list str) i :
  (forall j, j < i -> extra_columnname j ∈ names) -> i <= length names.
Proof.
  intros Hin.
  assert (Hsub : extra_columnname <$> seq 0 i ⊆+ names).
  { apply NoDup_submseteq.
    - apply NoDup_fmap_2; [|apply NoDup_seq].
      intros x y. apply extra_columnname_inj.
    - intros x Hx. apply list_elem_of_fmap in Hx as (j & -> & Hj).
      apply elem_of_seq in Hj. apply Hin. lia. }
  apply submseteq_length in Hsub.
  by rewrite length_fmap, length_seq in Hsub.
Qed.

Lemma extend_loop_spec ncolumns : forall fuel i names,
  (forall j, j < i -> extra_columnname j ∈ names) ->
  ncolumns <= fuel + i ->
  exists added,
    extend_loop fuel ncolumns i names = Ok (names ++ added) /\
    length (names ++ added) = length names `max` ncolumns /\
    fills_smallest names added /\
    (NoDup names -> NoDup (names ++ added)).
Proof.
  induction fuel as [|fuel IH]; intros i names Hinv Hfuel.
  - pose proof (extras_below_length names i Hinv) as Hi.
    exists []. simpl. destruct (decide (length names < ncolumns)); [lia|].
    rewrite app_nil_r. repeat split; [lia|constructor|done].
  - simpl. destruct (decide (length names < ncolumns)) as [Hlt|Hge].
    + destruct (decide (extra_columnname i ∈ names)) as [Hin|Hnin].
      * apply IH; [|lia]. intros j Hj.
        destruct (decide (j = i)) as [->|]; [done|apply Hinv; lia].
      * destruct (IH (S i) (names ++ [extra_columnname i]))
          as (added & Hrun & Hlen & Hfill & Hnd); [|lia|].
        { intros j Hj. apply elem_of_app.
          destruct (decide (j = i)) as [->|];
            [right; by apply list_elem_of_singleton|left; apply Hinv; lia]. }
        exists (extra_columnname i :: added).
        rewrite <- app_assoc in Hrun, Hlen, Hnd. simpl in Hrun, Hlen, Hnd.
        repeat split.
        -- done.
        -- rewrite Hlen, length_app. simpl. lia.
        -- constructor; [|done]. split; [done|]. intros j Hj. by apply Hinv.
        -- intros Hnames. apply Hnd. apply NoDup_app. repeat split.
           ++ done.
           ++ intros x Hx Hx'. apply list_elem_of_singleton in Hx' as ->. done.
           ++ apply NoDup_singleton.
    + exists []. rewrite app_nil_r. repeat split; [lia|constructor|done].
Qed.

(** The loop of [__next__] ends and returns the names extended as the
    docstring example shows: as many names as columns, every new one the
    first unused [extra<k>]. *)
Lemma extend_columnnames_spec ncolumns names :
  exists added,
    extend_columnnames ncolumns names = Ok (names ++ added) /\
    length (names ++ added) = length names `max` ncolumns /\
    fills_smallest names added /\
    (NoDup names -> NoDup (names ++ added)).
Proof.
  apply extend_loop_spec; [|lia]. intros j Hj. lia.
Qed.

(** ** Significant lines *)

Lemma lstrip_head l c t : lstrip l = c :: t -> isspace c = false.
Proof.
  induction l as [|a l IH]; simpl; [done|].
  destruct (isspace a) eqn:E; [done|]. by intros [= <- _].
Qed.

Lemma lstrip_snoc m c :
  isspace c = false -> exists x, lstrip (m ++ [c]) = x ++ [c].
Proof.
  intros Hc. induction m as [|a m IH]; simpl.
  - rewrite Hc. by exists [].
  - destruct (isspace a); [done|]. by exists (a :: m).
Qed.

Lemma head_strip l : head (strip l) = head (lstrip l).
Proof.
  unfold strip, rstrip. destruct (lstrip l) as [|c t] eqn:E; [done|].
  apply lstrip_head in E. rewrite reverse_cons.
  destruct (lstrip_snoc (reverse t) c E) as [x ->].
  by rewrite reverse_snoc.
Qed.

Lemma get_line_loop_step l ls :
  get_line_loop (l :: ls)
  = if significant l then (Ok (strip l), ls) else get_line_loop ls.
Proof.
  simpl. unfold significant. rewrite <- head_strip.
  destruct (strip l) as [|c t]; simpl; [done|].
  by destruct (Ascii.eqb c hash).
Qed.

(** [get_line] skips the lines that are not significant and returns the
    first significant one, trimmed; without one it raises
    [StopIteration]. *)
Lemma get_line_loop_filter ls :
  match List.filter significant ls with
  | [] => get_line_loop ls = (Raise StopIteration, [])
  | l :: fs =>
      exists rest, get_line_loop ls = (Ok (strip l), rest) /\
        List.filter significant rest = fs /\ length rest < length ls
  end.
Proof.
  induction ls as [|l ls IH]; [done|].
  rewrite get_line_loop_step. simpl.
  destruct (significant l).
  - exists ls. simpl. auto.
  - destruct (List.filter significant ls) as [|l' fs]; [done|].
    destruct IH as (rest & ? & ? & ?). exists rest. simpl. auto with lia.
Qed.

Lemma filter_significant_idemp ls :
  List.filter significant (List.filter significant ls)
  = List.filter significant ls.
Proof.
  induction ls as [|l ls IH]; [done|]. simpl.
  destruct (significant l) eqn:E; [|done]. simpl. by rewrite E, IH.
Qed.

(** ** [len(set(names))] *)

Lemma size_list_to_set_le (l : list str) :
  size (list_to_set l : gset str) <= length l.
Proof.
  induction l as [|x l IH]; [by vm_compute|]. cbn [list_to_set length].
  destruct (decide (x ∈ (list_to_set l : gset str))) as [Hin|Hnin].
  - rewrite (subseteq_union_1_L {[x]} (list_to_set l))
      by (by apply singleton_subseteq_l).
    lia.
  - rewrite size_union by (by apply disjoint_singleton_l).
    rewrite size_singleton. lia.
Qed.

Lemma len_set_NoDup (l : list str) :
  length l = size (list_to_set l : gset str) <-> NoDup l.
Proof.
  split; [|intros H; by rewrite size_list_to_set].
  induction l as [|x l IH]; [constructor|]. cbn [list_to_set length].
  intros Hlen. pose proof (size_list_to_set_le l) as Hle.
  destruct (decide (x ∈ (list_to_set l : gset str))) as [Hin|Hnin].
  - rewrite (subseteq_union_1_L {[x]} (list_to_set l)) in Hlen
      by (by apply singleton_subseteq_l).
    lia.
  - rewrite size_union, size_singleton in Hlen
      by (by apply disjoint_singleton_l).
    constructor; [by rewrite elem_of_list_to_set in Hnin|]. apply IH. lia.
Qed.

(** ** The methods, step by step *)

Section Reader.
Context {D : Type}.
Implicit Types (r : WsvReader D) (d : list (str * str) -> D).

Lemma same_object_refl r : same_object r r.
Proof. by repeat split. Qed.

Lemma same_object_trans r1 r2 r3 :
  same_object r1 r2 -> same_object r2 r3 -> same_object r1 r3.
Proof.
  unfold same_object. intros (?&?&?&?&?) (?&?&?&?&?).
  repeat split; congruence.
Qed.

Lemma next_same_object r : same_object r (snd (__next__ r)).
Proof.
  unfold __next__, get_line.
  destruct (fileiter r) eqn:Hfi; [|apply same_object_refl].
  destruct (get_line_loop (remaining (file r))) as [o rest].
  repeat case_match; simpl; by repeat split.
Qed.

Lemma read_header_same_object r : same_object r (snd (read_header r)).
Proof.
  unfold read_header, get_line.
  destruct (fileiter r) eqn:Hfi; [|apply same_object_refl].
  destruct (get_line_loop (remaining (file r))) as [o rest].
  repeat case_match; simpl; by repeat split.
Qed.

Lemma collect_same_object : forall fuel r acc,
  same_object r (snd (collect fuel r acc)).
Proof.
  induction fuel as [|fuel IH]; intros r acc; simpl; [apply same_object_refl|].
  pose proof (next_same_object r) as Hn.
  destruct (__next__ r) as [o r1]. simpl in Hn.
  destruct o as [row|e|]; [|by destruct e|done].
  eapply same_object_trans; [exact Hn|apply IH].
Qed.

(** [__next__] on a started reader whose next significant line is [line]:
    it returns a row, whatever the line holds. *)
Lemma next_on_line r names line rest :
  fileiter r = true -> columnnames r = Some names ->
  get_line_loop (remaining (file r)) = (Ok line, rest) ->
  exists columns added,
    split_line line = Ok columns /\
    extend_columnnames (length columns) names = Ok (names ++ added) /\
    length (names ++ added) = length names `max` length columns /\
    fills_smallest names added /\
    (NoDup names -> NoDup (names ++ added)) /\
    __next__ r = (Ok (dict r (zip (names ++ added) columns)),
                  set_columnnames (set_remaining r rest) (names ++ added)).
Proof.
  intros Hfi Hcn Hgl.
  destruct (split_line_total line) as [columns Hc].
  destruct (extend_columnnames_spec (length columns) names)
    as (added & Hext & Hlen & Hfill & Hnd).
  exists columns, added. repeat split; try done.
  unfold __next__, get_line. rewrite Hfi, Hgl, Hc. simpl.
  by rewrite Hcn, Hext.
Qed.

Lemma next_at_end r :
  fileiter r = true ->
  get_line_loop (remaining (file r)) = (Raise StopIteration, []) ->
  __next__ r = (Raise StopIteration, set_remaining r []).
Proof.
  intros Hfi Hgl. unfold __next__, get_line. by rewrite Hfi, Hgl.
Qed.

Lemma bind_Ok_id {A} (o : outcome A) : (x ← o; Ok x) = o.
Proof. by destruct o. Qed.

(** The loop of a pass returns the rows of the significant lines left. *)
Lemma collect_rows : forall fuel r names acc,
  fileiter r = true -> columnnames r = Some names ->
  length (remaining (file r)) < fuel ->
  fst (collect fuel r acc)
  = (rows ← rows_of (dict r) names (significant_lines (remaining (file r)));
     Ok (acc ++ rows)).
Proof.
  induction fuel as [|fuel IH]; intros r names acc Hfi Hcn Hfuel; [lia|].
  pose proof (get_line_loop_filter (remaining (file r))) as Hgl.
  unfold significant_lines. simpl.
  destruct (List.filter significant (remaining (file r))) as [|l fs].
  - rewrite (next_at_end r Hfi Hgl). simpl. by rewrite app_nil_r.
  - destruct Hgl as (rest & Hgl & Hfs & Hlen).
    destruct (next_on_line r names _ rest Hfi Hcn Hgl)
      as (columns & added & Hc & Hext & _ & _ & _ & Hnext).
    rewrite Hnext. simpl. rewrite Hc. simpl. rewrite Hext. simpl.
    rewrite (IH _ (names ++ added)); [|done|done|simpl; lia].
    simpl. unfold significant_lines. rewrite Hfs.
    destruct (rows_of (dict r) (names ++ added) (map strip fs)); simpl;
      [|done|done].
    by rewrite <- app_assoc.
Qed.

#[local] Arguments collect : simpl never.

(** [read_header] on a reader whose iterator is bound. *)
Lemma read_header_spec r :
  fileiter r = true ->
  match List.filter significant (remaining (file r)) with
  | [] => read_header r = (Raise StopIteration, set_remaining r [])
  | l :: fs =>
      exists names rest,
        split_line (strip l) = Ok names /\
        List.filter significant rest = fs /\
        length rest < length (remaining (file r)) /\
        read_header r
        = (if decide (NoDup names) then Ok () else Raise ValueError,
           set_columnnames (set_remaining r rest) names)
  end.
Proof.
  intros Hfi.
  pose proof (get_line_loop_filter (remaining (file r))) as Hgl.
  destruct (List.filter significant (remaining (file r))) as [|l fs].
  - unfold read_header, get_line. by rewrite Hfi, Hgl.
  - destruct Hgl as (rest & Hgl & Hfs & Hlen).
    destruct (split_line_total (strip l)) as [names Hnames].
    exists names, rest. repeat split; try done.
    unfold read_header, get_line. rewrite Hfi, Hgl, Hnames.
    destruct (decide (NoDup names)) as [Hnd|Hnd].
    + apply len_set_NoDup in Hnd. by rewrite decide_False by (by intros ?).
    + rewrite decide_True; [done|]. by rewrite len_set_NoDup.
Qed.

Lemma iter_first r :
  need_seek r = false -> __iter__ r = read_header (started r (file r)).
Proof. intros H. unfold __iter__. by rewrite H. Qed.

Lemma iter_again r :
  need_seek r = true -> seekable (file r) = true ->
  __iter__ r = read_header (started r (rewound (file r))).
Proof. intros H1 H2. unfold __iter__, seek0. by rewrite H1, H2. Qed.

Lemma iter_illegal_seek r :
  need_seek r = true -> seekable (file r) = false ->
  __iter__ r = (Raise IOError, r).
Proof. intros H1 H2. unfold __iter__, seek0. by rewrite H1, H2. Qed.

(** A pass that does not fail on [seek] returns [pass_rows] of the
    significant lines it reads. *)
Lemma list_of_started r f :
  fst (match read_header (started r f) with
       | (Ok _, r1) => collect (S (length (remaining (file r1)))) r1 []
       | (Raise e, r1) => (Raise e, r1)
       | (OutOfFuel, r1) => (OutOfFuel, r1)
       end)
  = pass_rows (dict r) (significant_lines (remaining f)).
Proof.
  pose proof (read_header_spec (started r f) eq_refl) as Hh. simpl in Hh.
  unfold significant_lines.
  destruct (List.filter significant (remaining f)) as [|l fs].
  - by rewrite Hh.
  - destruct Hh as (names & rest & Hnames & Hfs & Hlen & ->).
    simpl. rewrite Hnames. simpl.
    destruct (decide (NoDup names)); [|done].
    rewrite (collect_rows _ _ names); [|done|done|simpl; lia].
    simpl. unfold significant_lines. rewrite Hfs.
    by destruct (rows_of (dict r) names (map strip fs)).
Qed.

Lemma list_of_rows r :
  need_seek r = false \/ seekable (file r) = true ->
  fst (list_of r) = pass_rows (dict r) (significant_lines (pass_input r)).
Proof.
  intros Hseek. unfold list_of, pass_input.
  destruct (need_seek r) eqn:Hns.
  - destruct Hseek as [|Hsk]; [done|].
    rewrite (iter_again r Hns Hsk).
    pose proof (list_of_started r (rewound (file r))) as H. simpl in H.
    rewrite <- H. by destruct (read_header _) as [[| |] ?].
  - rewrite (iter_first r Hns).
    pose proof (list_of_started r (file r)) as H.
    rewrite <- H. by destruct (read_header _) as [[| |] ?].
Qed.

End Reader.

(** ** Passes *)

Section Passes.
Context {D : Type}.
Implicit Types (r : WsvReader D) (d : list (str * str) -> D).

Lemma rows_of_total d : forall lines names,
  exists rows, rows_of d names lines = Ok rows /\ length rows = length lines.
Proof.
  induction lines as [|l lines IH]; intros names; [by exists []|].
  destruct (split_line_total l) as [columns Hc].
  destruct (extend_columnnames_spec (length columns) names)
    as (added & Hext & _).
  destruct (IH (names ++ added)) as (rows & Hrows & Hlen).
  exists (d (zip (names ++ added) columns) :: rows).
  simpl. rewrite Hc. simpl. rewrite Hext. simpl. rewrite Hrows. simpl.
  by rewrite Hlen.
Qed.

Lemma pass_rows_cases d lines :
  pass_rows d lines = Raise StopIteration \/
  pass_rows d lines = Raise ValueError \/
  exists rows, pass_rows d lines = Ok rows /\ S (length rows) = length lines.
Proof.
  destruct lines as [|header lines]; [by left|]. right.
  destruct (split_line_total header) as [names Hnames].
  simpl. rewrite Hnames. simpl.
  destruct (decide (NoDup names)); [right|by left].
  destruct (rows_of_total d lines names) as (rows & -> & Hlen).
  exists rows. by rewrite Hlen.
Qed.

(** The dictionary constructor is only ever applied to the zipped pairs. *)
Lemma rows_of_dict d : forall lines names,
  rows_of d names lines
  = (pairs ← rows_of id names lines; Ok (map d pairs)).
Proof.
  induction lines as [|l lines IH]; intros names; [done|].
  simpl. destruct (split_line l) as [columns| |]; simpl; [|done|done].
  destruct (extend_columnnames (length columns) names) as [names'| |];
    simpl; [|done|done].
  rewrite IH. by destruct (rows_of id names' lines).
Qed.

Lemma pass_rows_dict d lines :
  pass_rows d lines = (pairs ← pass_rows id lines; Ok (map d pairs)).
Proof.
  destruct lines as [|header lines]; [done|].
  simpl. destruct (split_line header) as [names| |]; simpl; [|done|done].
  destruct (decide (NoDup names)); [|done]. apply rows_of_dict.
Qed.

(** Whatever happens in a pass, it leaves a reader that will seek before
    the next one, on the same stream and with the same constructor. *)
Lemma iter_after r :
  need_seek (snd (__iter__ r)) = true /\
  seekable (file (snd (__iter__ r))) = seekable (file r) /\
  content (file (snd (__iter__ r))) = content (file r) /\
  dict (snd (__iter__ r)) = dict r.
Proof.
  destruct (need_seek r) eqn:Hns.
  - destruct (seekable (file r)) eqn:Hsk.
    + rewrite (iter_again r Hns Hsk).
      destruct (read_header_same_object (started r (rewound (file r))))
        as (Hc & Hs & Hd & Hn & _).
      simpl in *. by rewrite Hc, Hs, Hd, Hn.
    + by rewrite (iter_illegal_seek r Hns Hsk).
  - rewrite (iter_first r Hns).
    destruct (read_header_same_object (started r (file r)))
      as (Hc & Hs & Hd & Hn & _).
    simpl in *. by rewrite Hc, Hs, Hd, Hn.
Qed.

Lemma list_of_after r :
  need_seek (snd (list_of r)) = true /\
  seekable (file (snd (list_of r))) = seekable (file r) /\
  content (file (snd (list_of r))) = content (file r) /\
  dict (snd (list_of r)) = dict r.
Proof.
  pose proof (iter_after r) as Hi. unfold list_of.
  destruct (__iter__ r) as [o r1]. simpl in Hi.
  destruct o as [[]|e|]; [|done|done].
  destruct (collect_same_object (S (length (remaining (file r1)))) r1 [])
    as (Hc & Hs & Hd & Hn & _).
  destruct Hi as (Hn1 & Hs1 & Hc1 & Hd1).
  by rewrite Hc, Hs, Hd, Hn.
Qed.

Lemma passes_after r n :
  1 <= n ->
  need_seek (passes n r) = true /\
  seekable (file (passes n r)) = seekable (file r) /\
  content (file (passes n r)) = content (file r) /\
  dict (passes n r) = dict r.
Proof.
  intros Hn. destruct n as [|n]; [lia|]. clear Hn.
  induction n as [|n (IHn & IHs & IHc & IHd)]; [apply list_of_after|].
  destruct (list_of_after (passes (S n) r)) as (Hn & Hs & Hc & Hd).
  change (passes (S (S n)) r) with (snd (list_of (passes (S n) r))).
  by rewrite Hs, Hc, Hd, IHs, IHc, IHd.
Qed.

(** The column names [__iter__] leaves: the tokens of the header. *)
Lemma iter_columnnames r :
  need_seek r = false \/ seekable (file r) = true ->
  columnnames (snd (__iter__ r))
  = match List.filter significant (pass_input r) with
    | [] => columnnames r
    | header :: _ =>
        match split_line (strip header) with
        | Ok names => Some names
        | _ => columnnames r
        end
    end.
Proof.
  intros Hseek.
  assert (exists f, __iter__ r = read_header (started r f) /\
                    remaining f = pass_input r) as (f & -> & <-).
  { unfold pass_input. destruct (need_seek r) eqn:Hns.
    - destruct Hseek as [|Hsk]; [done|].
      exists (rewound (file r)). by rewrite (iter_again r Hns Hsk).
    - exists (file r). by rewrite (iter_first r Hns). }
  pose proof (read_header_spec (started r f) eq_refl) as Hh. simpl in Hh.
  destruct (List.filter significant (remaining f)) as [|l fs].
  - by rewrite Hh.
  - destruct Hh as (names & rest & -> & _ & _ & ->). done.
Qed.

End Passes.

(** ** The builtin dictionary *)

Lemma py_dict_foldl (l : list (str * str)) : forall m0 : gmap str str,
  NoDup (l.*1) -> (forall k, k ∈ l.*1 -> m0 !! k = None) ->
  foldl (fun m p => <[p.1 := p.2]> m) m0 l = list_to_map l ∪ m0.
Proof.
  induction l as [|[k v] l IH]; intros m0 Hnd Hm0; simpl.
  - by rewrite (left_id_L ∅ (∪)).
  - apply NoDup_cons in Hnd as [Hk Hnd].
    rewrite IH; [|done|].
    + rewrite <- insert_union_l.
      by rewrite insert_union_r by by apply not_elem_of_list_to_map_1.
    + intros k' Hk'. rewrite lookup_insert_ne; [|by intros ->].
      apply Hm0. simpl. by right.
Qed.

(** With distinct keys the dictionary holds exactly the pairs. *)
Lemma py_dict_list_to_map (l : list (str * str)) :
  NoDup (l.*1) -> py_dict l = list_to_map l.
Proof.
  intros Hnd. unfold py_dict. rewrite py_dict_foldl; [|done|done].
  by rewrite (right_id_L ∅ (∪)).
Qed.

Lemma fills_smallest_fresh names added :
  fills_smallest names added ->
  (forall a, a ∈ added -> a ∉ names) /\ NoDup added.
Proof.
  induction 1 as [|names k added [Hk _] _ [IH1 IH2]].
  - split; [by intros a Ha%elem_of_nil|constructor].
  - split.
    + intros a Ha. apply elem_of_cons in Ha as [->|Ha]; [done|].
      intros Hin. apply (IH1 a Ha). apply elem_of_app. by left.
    + constructor; [|done]. intros Hin. apply (IH1 _ Hin).
      apply elem_of_app. right. by apply list_elem_of_singleton.
Qed.

(** ** Quoting *)

Lemma replace_dquotes_escape v : replace_dquotes (escape v) = v.
Proof.
  induction v as [|c v IH]; [done|]. simpl.
  destruct (Ascii.eqb c dquote) eqn:E.
  - apply Ascii.eqb_eq in E as ->. simpl. by rewrite IH.
  - change (replace_dquotes (c :: escape v))
      with (match escape v with
            | c' :: s'' =>
                if Ascii.eqb c dquote && Ascii.eqb c' dquote
                then dquote :: replace_dquotes s''
                else c :: replace_dquotes (escape v)
            | [] => [c]
            end).
    rewrite E. simpl. rewrite IH. by destruct (escape v); [destruct v|].
Qed.

Lemma unquote_bare t :
  t <> [] -> head t <> Some dquote -> unquote t = Ok t.
Proof.
  destruct t as [|c t]; [done|]. intros _ Hc. simpl.
  destruct (Ascii.eqb c dquote) eqn:E; [|done].
  apply Ascii.eqb_eq in E as ->. done.
Qed.

Lemma unquote_quoted body :
  unquote (dquote :: body ++ [dquote]) = Ok (replace_dquotes body).
Proof.
  unfold unquote. rewrite Ascii.eqb_refl, last_cons, last_snoc.
  rewrite Ascii.eqb_refl. unfold slice_1_m1. simpl.
  by rewrite removelast_last.
Qed.

(** ** Starting a pass *)

Section Start.
Context {D : Type}.
Implicit Types (r : WsvReader D) (d : list (str * str) -> D).

(** Unless [seek] fails, [__iter__] is [read_header] on the lines of the
    pass. *)
Lemma iter_reads r :
  need_seek r = false \/ seekable (file r) = true ->
  exists f, __iter__ r = read_header (started r f) /\
            remaining f = pass_input r.
Proof.
  intros Hseek. unfold pass_input. destruct (need_seek r) eqn:Hns.
  - destruct Hseek as [|Hsk]; [done|].
    exists (rewound (file r)). by rewrite (iter_again r Hns Hsk).
  - exists (file r). by rewrite (iter_first r Hns).
Qed.

Lemma read_header_on_line r header rest names :
  fileiter r = true ->
  get_line_loop (remaining (file r)) = (Ok header, rest) ->
  split_line header = Ok names ->
  read_header r
  = (if decide (NoDup names) then Ok () else Raise ValueError,
     set_columnnames (set_remaining r rest) names).
Proof.
  intros Hfi Hgl Hnames.
  unfold read_header, get_line. rewrite Hfi, Hgl, Hnames.
  destruct (decide (NoDup names)) as [Hnd|Hnd].
  - apply len_set_NoDup in Hnd. by rewrite decide_False by (by intros ?).
  - rewrite decide_True; [done|]. by rewrite len_set_NoDup.
Qed.

Lemma pass_rows_well_formed d lines :
  well_formed lines ->
  exists rows,
    pass_rows d (significant_lines lines) = Ok rows /\
    S (length rows) = length (List.filter significant lines).
Proof.
  intros (header & rest & names & Hf & Hnames & Hnd).
  unfold significant_lines. rewrite Hf. simpl. rewrite Hnames. simpl.
  rewrite decide_True by done.
  destruct (rows_of_total d (map strip rest) names) as (rows & -> & Hlen).
  exists rows. by rewrite Hlen, length_map.
Qed.

Lemma filter_significant_nil lines :
  Forall (fun l => significant l = false) lines ->
  List.filter significant lines = [].
Proof.
  induction 1 as [|l lines Hl _ IH]; [done|]. simpl. by rewrite Hl.
Qed.

End Start.

(** * The statements of the specification *)

(** C9.  Every token that [split_line] passes to [unquote] is non-empty,
    and if it starts with a double quote it also ends with one; so on these
    tokens [unquote] returns a value: neither its assertion nor the
    indexing of the first and last character fails, and [split_line] is
    [unquote] mapped over the tokens. *)
Theorem unquote_safe_on_tokens (line : str) :
  exists toks,
    unquote_calls line = Ok toks /\
    Forall token_ok toks /\
    Forall (fun t => exists v, unquote t = Ok v) toks /\
    split_line line = mapM unquote toks.
Proof.
  destruct (split_line_with_tokens line) as (toks & Hok & Hrun).
  exists toks. unfold unquote_calls, split_line. rewrite !Hrun.
  repeat split; [apply mapM_Ok_id|done|].
  eapply Forall_impl; [exact Hok|]. apply unquote_token_ok.
Qed.

(** C1, as the code has it.  The claim asks for a parse error on a token
    that opens a quote and never closes it.  There is no such error: on the
    line made of an opening quote and [abc], [split_line] returns no column
    at all; on [a], an opening quote, [bc d] it returns [a] and [d]; and a
    pass over a header and the first of these lines yields one row, the
    empty one. *)
Lemma unterminated_quote_is_dropped :
  split_line (dquote :: py "abc") = Ok [] /\
  ~ (exists e, split_line (dquote :: py "abc") = Raise e) /\
  split_line (py "a " ++ dquote :: py "bc d") = Ok [py "a"; py "d"] /\
  fst (list_of (__init__
         (StringIO [nl (py "col1 col2"); nl (dquote :: py "abc")]) id))
  = Ok [[]].
Proof.
  repeat split; try (vm_compute; reflexivity).
  intros [e He]. vm_compute in He. discriminate.
Qed.

(** C1, amended.  Reading the row of any significant line returns: the
    line is split into columns without an error, whatever its quoting, and
    [__next__] returns a row for it. *)
Theorem next_returns_a_row_for_every_line {D} (r : WsvReader D)
    (names : list str) (line : str) (rest : list str) :
  fileiter r = true ->
  columnnames r = Some names ->
  get_line_loop (remaining (file r)) = (Ok line, rest) ->
  exists columns row r',
    split_line line = Ok columns /\ __next__ r = (Ok row, r').
Proof.
  intros Hfi Hcn Hgl.
  destruct (next_on_line r names line rest Hfi Hcn Hgl)
    as (columns & added & Hc & _ & _ & _ & _ & Hnext).
  eauto 6.
Qed.

Lemma next_returns_a_row_for_every_line_witness :
  exists columns row r',
    split_line (dquote :: py "abc") = Ok columns /\
    __next__ (reading id [py "col1"] [nl (dquote :: py "abc")])
    = (Ok row, r').
Proof.
  apply (next_returns_a_row_for_every_line
           (reading id [py "col1"] [nl (dquote :: py "abc")])
           [py "col1"] (dquote :: py "abc") []);
    vm_compute; reflexivity.
Defined.

(** C7.  [unquote] returns a token that does not start with a double
    quote unchanged; of a token between double quotes it returns the inside
    with every doubled double quote replaced by one, so that a value
    written with its quotes doubled is read back as it was.  The token of
    two double quotes gives the empty string, which a record holds as a
    value, while a key that was never set is absent; and the token of the
    test suite gives [special] between double quotes followed by
    [ data]. *)
Theorem unquote_spec :
  (forall t, t <> [] -> head t <> Some dquote -> unquote t = Ok t) /\
  (forall body, unquote (quote body) = Ok (replace_dquotes body)) /\
  (forall v, unquote (quote (escape v)) = Ok v) /\
  unquote (quote []) = Ok [] /\
  unquote (quote (quote (quote (py "special")) ++ py " data"))
  = Ok (quote (py "special") ++ py " data") /\
  (forall k, py_dict [(k, [])] !! k = Some [] /\ py_dict [] !! k = None).
Proof.
  split; [exact unquote_bare|].
  split; [exact unquote_quoted|].
  split; [intros v; transitivity (Ok (replace_dquotes (escape v)));
          [exact (unquote_quoted (escape v))
          |by rewrite replace_dquotes_escape]|].
  split; [reflexivity|]. split; [vm_compute; reflexivity|].
  intros k. unfold py_dict. simpl. split; [apply lookup_insert_eq|done].
Qed.

Lemma unquote_spec_witness : unquote (py "data1") = Ok (py "data1").
Proof.
  apply (proj1 unquote_spec (py "data1")); [discriminate|].
  vm_compute. discriminate.
Defined.

(** C2.  When a row has more columns than there are names, [__next__]
    appends one name per missing position, each of them [extra] followed
    by the smallest integer whose name is not in the list at that moment;
    the appended names are new and distinct.  On the text of
    [test_too_many_values] the three rows are the ones the test expects. *)
Theorem next_appends_smallest_unused :
  (forall D (r : WsvReader D) (names : list str) (line : str)
          (rest : list str),
     fileiter r = true ->
     columnnames r = Some names ->
     get_line_loop (remaining (file r)) = (Ok line, rest) ->
     exists columns added r',
       split_line line = Ok columns /\
       __next__ r = (Ok (dict r (zip (names ++ added) columns)), r') /\
       columnnames r' = Some (names ++ added) /\
       length added = length columns - length names /\
       fills_smallest names added /\
       (forall a, a ∈ added -> a ∉ names) /\
       NoDup added /\
       (NoDup names -> NoDup (names ++ added))) /\
  fst (list_of (__init__ (StringIO too_many_values) py_dict))
  = Ok [ py_dict [(py "col1", py "d1"); (py "extra1", py "d2");
                  (py "col3", py "d3")];
         py_dict [(py "col1", py "d1"); (py "extra1", py "d2");
                  (py "col3", py "d3"); (py "extra0", py "d4");
                  (py "extra2", py "d5"); (py "extra3", py "d6")];
         py_dict [(py "col1", py "d1"); (py "extra1", py "d2");
                  (py "col3", py "d3"); (py "extra0", py "d4")] ].
Proof.
  split.
  - intros D r names line rest Hfi Hcn Hgl.
    destruct (next_on_line r names line rest Hfi Hcn Hgl)
      as (columns & added & Hc & _ & Hlen & Hfill & Hnd & Hnext).
    destruct (fills_smallest_fresh names added Hfill) as [Hfresh Hnd'].
    exists columns, added,
      (set_columnnames (set_remaining r rest) (names ++ added)).
    repeat split; try done.
    rewrite length_app in Hlen. lia.
  - rewrite list_of_rows by (by left). rewrite pass_rows_dict.
    match goal with
    | |- context [pass_rows id ?lines] =>
        let v := eval vm_compute in (pass_rows id lines) in
        assert (pass_rows id lines = v) as -> by (vm_compute; reflexivity)
    end.
    reflexivity.
Qed.

Lemma next_appends_smallest_unused_witness :
  exists columns added r',
    split_line (py "d1 d2 d3 d4 d5 d6") = Ok columns /\
    __next__ (reading py_dict [py "col1"; py "extra1"; py "col3"]
                [nl (py "d1 d2 d3 d4 d5 d6")])
    = (Ok (py_dict (zip ([py "col1"; py "extra1"; py "col3"] ++ added)
                        columns)), r') /\
    columnnames r' = Some ([py "col1"; py "extra1"; py "col3"] ++ added) /\
    length added = length columns - 3 /\
    fills_smallest [py "col1"; py "extra1"; py "col3"] added /\
    (forall a, a ∈ added -> a ∉ [py "col1"; py "extra1"; py "col3"]) /\
    NoDup added /\
    (NoDup [py "col1"; py "extra1"; py "col3"] ->
     NoDup ([py "col1"; py "extra1"; py "col3"] ++ added)).
Proof.
  apply (proj1 next_appends_smallest_unused _
           (reading py_dict [py "col1"; py "extra1"; py "col3"]
              [nl (py "d1 d2 d3 d4 d5 d6")])
           [py "col1"; py "extra1"; py "col3"]
           (py "d1 d2 d3 d4 d5 d6") []);
    [reflexivity|reflexivity|vm_compute; reflexivity].
Defined.

(** C3.  The row [__next__] returns for a line of N columns pairs the
    first N column names, in the order of the list, with the N column
    values; a line with no more columns than names leaves the names as they
    are and is no error.  As a builtin dictionary the row has exactly these
    N names as keys, each with the value at its position, and no other
    key. *)
Theorem next_row_keys {D} (r : WsvReader D) (names : list str)
    (line : str) (rest : list str) :
  fileiter r = true ->
  columnnames r = Some names ->
  get_line_loop (remaining (file r)) = (Ok line, rest) ->
  exists columns names' r',
    split_line line = Ok columns /\
    __next__ r = (Ok (dict r (zip names' columns)), r') /\
    columnnames r' = Some names' /\
    names `prefix_of` names' /\
    (length columns <= length names -> names' = names) /\
    (zip names' columns).*1 = take (length columns) names' /\
    (zip names' columns).*2 = columns /\
    length (take (length columns) names') = length columns /\
    (NoDup names ->
       dom (py_dict (zip names' columns))
       = list_to_set (take (length columns) names') /\
       size (py_dict (zip names' columns)) = length columns /\
       (forall i k v, names' !! i = Some k -> columns !! i = Some v ->
          py_dict (zip names' columns) !! k = Some v) /\
       (forall k, k ∉ take (length columns) names' ->
          py_dict (zip names' columns) !! k = None)).
Proof.
  intros Hfi Hcn Hgl.
  destruct (next_on_line r names line rest Hfi Hcn Hgl)
    as (columns & added & Hc & _ & Hlen & _ & Hnd & Hnext).
  exists columns, (names ++ added),
    (set_columnnames (set_remaining r rest) (names ++ added)).
  set (L := names ++ added) in *.
  assert (Htake : length (take (length columns) L) = length columns)
    by (rewrite length_take; lia).
  assert (Hz : zip L columns = zip (take (length columns) L) columns)
    by (symmetry; apply zip_with_take_l).
  assert (Hfst : (zip L columns).*1 = take (length columns) L)
    by (rewrite Hz; apply fst_zip; lia).
  repeat split; try done.
  - by exists added.
  - intros Hle. subst L. rewrite length_app in Hlen.
    assert (length added = 0) as Hadd by lia.
    apply nil_length_inv in Hadd as ->. apply app_nil_r.
  - apply snd_zip. lia.
  - rewrite py_dict_list_to_map, dom_list_to_map_L, Hfst; [done|].
    rewrite Hfst. eapply sublist_NoDup; [by apply Hnd|apply sublist_take].
  - rewrite <- size_dom.
    rewrite py_dict_list_to_map, dom_list_to_map_L, Hfst.
    + rewrite size_list_to_set; [done|].
      eapply sublist_NoDup; [by apply Hnd|apply sublist_take].
    + rewrite Hfst. eapply sublist_NoDup; [by apply Hnd|apply sublist_take].
  - intros i k v Hk Hv. rewrite py_dict_list_to_map.
    + apply elem_of_list_to_map.
      * rewrite Hfst.
        eapply sublist_NoDup; [by apply Hnd|apply sublist_take].
      * apply list_elem_of_lookup_2 with i.
        rewrite lookup_zip_with, Hk. simpl. by rewrite Hv.
    + rewrite Hfst. eapply sublist_NoDup; [by apply Hnd|apply sublist_take].
  - intros k Hk. rewrite py_dict_list_to_map.
    + apply not_elem_of_list_to_map_1. by rewrite Hfst.
    + rewrite Hfst. eapply sublist_NoDup; [by apply Hnd|apply sublist_take].
Qed.

Lemma next_row_keys_witness :
  exists columns names' r',
    split_line (py "only_first") = Ok columns /\
    __next__ (reading py_dict [py "1st"; py "2nd column"; py "3rd"]
                [nl (py "only_first")])
    = (Ok (py_dict (zip names' columns)), r') /\
    columnnames r' = Some names' /\
    [py "1st"; py "2nd column"; py "3rd"] `prefix_of` names' /\
    (length columns <= 3 -> names' = [py "1st"; py "2nd column"; py "3rd"]) /\
    (zip names' columns).*1 = take (length columns) names' /\
    (zip names' columns).*2 = columns /\
    length (take (length columns) names') = length columns /\
    (NoDup [py "1st"; py "2nd column"; py "3rd"] ->
       dom (py_dict (zip names' columns))
       = list_to_set (take (length columns) names') /\
       size (py_dict (zip names' columns)) = length columns /\
       (forall i k v, names' !! i = Some k -> columns !! i = Some v ->
          py_dict (zip names' columns) !! k = Some v) /\
       (forall k, k ∉ take (length columns) names' ->
          py_dict (zip names' columns) !! k = None)).
Proof.
  apply (next_row_keys
           (reading py_dict [py "1st"; py "2nd column"; py "3rd"]
              [nl (py "only_first")])
           [py "1st"; py "2nd column"; py "3rd"]
           (py "only_first") []);
    [reflexivity|reflexivity|vm_compute; reflexivity].
Defined.

(** C4.  When two names on the header line are equal, starting a pass
    raises [ValueError] and the pass yields no row; when the names are
    pairwise distinct, starting the pass succeeds and the names are the
    column names. *)
Theorem header_names_must_be_distinct {D} (r : WsvReader D)
    (header : str) (rest names : list str) :
  need_seek r = false \/ seekable (file r) = true ->
  get_line_loop (pass_input r) = (Ok header, rest) ->
  split_line header = Ok names ->
  ((exists i j x, i <> j /\ names !! i = Some x /\ names !! j = Some x) ->
     fst (__iter__ r) = Raise ValueError /\
     fst (list_of r) = Raise ValueError) /\
  (NoDup names ->
     fst (__iter__ r) = Ok () /\
     columnnames (snd (__iter__ r)) = Some names).
Proof.
  intros Hseek Hgl Hnames.
  destruct (iter_reads r Hseek) as (f & Hiter & Hf).
  rewrite <- Hf in Hgl.
  pose proof (read_header_on_line (started r f) header rest names
                eq_refl Hgl Hnames) as Hh.
  unfold list_of. rewrite Hiter, Hh. split.
  - intros (i & j & x & Hij & Hi & Hj).
    rewrite decide_False; [done|].
    intros Hnd. apply Hij. by apply (NoDup_lookup names i j x).
  - intros Hnd. by rewrite decide_True.
Qed.

Lemma header_names_must_be_distinct_witness :
  ((exists i j x, i <> j /\ [py "col1"; py "col2"] !! i = Some x /\
                  [py "col1"; py "col2"] !! j = Some x) ->
     fst (__iter__ (__init__ (StringIO [nl (py "col1 col2");
                                         nl (py "data1 data2")]) py_dict))
     = Raise ValueError /\
     fst (list_of (__init__ (StringIO [nl (py "col1 col2");
                                        nl (py "data1 data2")]) py_dict))
     = Raise ValueError) /\
  (NoDup [py "col1"; py "col2"] ->
     fst (__iter__ (__init__ (StringIO [nl (py "col1 col2");
                                         nl (py "data1 data2")]) py_dict))
     = Ok () /\
     columnnames
       (snd (__iter__ (__init__ (StringIO [nl (py "col1 col2");
                                            nl (py "data1 data2")]) py_dict)))
     = Some [py "col1"; py "col2"]).
Proof.
  apply (header_names_must_be_distinct
           (__init__ (StringIO [nl (py "col1 col2"); nl (py "data1 data2")])
              py_dict)
           (py "col1 col2") [nl (py "data1 data2")]
           [py "col1"; py "col2"]);
    [by left|vm_compute; reflexivity|vm_compute; reflexivity].
Defined.

Example duplicate_header_raises :
  list_of (__init__ (StringIO [nl (py "a b a"); nl (py "1 2 3")]) id)
  = (Raise ValueError,
     {| file := {| content := [nl (py "a b a"); nl (py "1 2 3")];
                   remaining := [nl (py "1 2 3")]; seekable := true |};
        need_seek := true; dict := id; fileiter := true;
        columnnames := Some [py "a"; py "b"; py "a"] |}).
Proof. vm_compute. reflexivity. Qed.

(** C5.  On a stream that cannot seek, the first pass does not call
    [seek]: it never raises [IOError], it gives what the same pass gives on
    a seekable stream, namely the rows of the lines not read yet, and it
    returns rows when the text is well formed.  Every later pass raises
    [IOError] when it starts and leaves the reader as it was. *)
Theorem first_pass_needs_no_seek {D} (f : stream)
    (d : list (str * str) -> D) :
  seekable f = false ->
  fst (__iter__ (__init__ f d)) <> Raise IOError /\
  fst (list_of (__init__ f d)) <> Raise IOError /\
  fst (list_of (__init__ f d))
  = fst (list_of (__init__ (seekable_twin f) d)) /\
  fst (list_of (__init__ f d))
  = pass_rows d (significant_lines (remaining f)) /\
  (well_formed (remaining f) ->
     exists rows, fst (list_of (__init__ f d)) = Ok rows) /\
  (forall n, 1 <= n ->
     __iter__ (passes n (__init__ f d))
     = (Raise IOError, passes n (__init__ f d)) /\
     list_of (passes n (__init__ f d))
     = (Raise IOError, passes n (__init__ f d))).
Proof.
  intros Hsk.
  assert (Hrows : fst (list_of (__init__ f d))
                  = pass_rows d (significant_lines (remaining f)))
    by (by rewrite list_of_rows by (by left)).
  assert (Hno : forall lines,
             pass_rows d lines <> Raise IOError).
  { intros lines.
    destruct (pass_rows_cases d lines) as [->|[->|(rows & -> & _)]]; done. }
  repeat split.
  - destruct (iter_reads (__init__ f d)) as (f0 & -> & _); [by left|].
    pose proof (read_header_spec (started (__init__ f d) f0) eq_refl) as Hh.
    destruct (List.filter significant
                (remaining (file (started (__init__ f d) f0)))) as [|l fs].
    + by rewrite Hh.
    + destruct Hh as (names & rest & _ & _ & _ & ->).
      by destruct (decide (NoDup names)).
  - rewrite Hrows. apply Hno.
  - rewrite Hrows. by rewrite list_of_rows by (by left).
  - done.
  - intros Hwf. rewrite Hrows.
    destruct (pass_rows_well_formed d _ Hwf) as (rows & -> & _). eauto.
  - destruct (passes_after (__init__ f d) n) as (Hn & Hs & _); [done|].
    apply iter_illegal_seek; [done|]. by rewrite Hs.
  - destruct (passes_after (__init__ f d) n) as (Hn & Hs & _); [done|].
    unfold list_of. rewrite iter_illegal_seek; [done|done|]. by rewrite Hs.
Qed.

Lemma first_pass_needs_no_seek_witness :
  fst (list_of (__init__ (NoSeekStringIO [nl (py "col1 col2");
                                           nl (py "data1 data2")]) id))
  = pass_rows id
      (significant_lines [nl (py "col1 col2"); nl (py "data1 data2")]) /\
  fst (list_of (passes 1
         (__init__ (NoSeekStringIO [nl (py "col1 col2");
                                     nl (py "data1 data2")]) id)))
  = Raise IOError.
Proof.
  pose proof (first_pass_needs_no_seek
                (NoSeekStringIO [nl (py "col1 col2"); nl (py "data1 data2")])
                id eq_refl) as (_ & _ & _ & Hrows & _ & Hlater).
  split; [exact Hrows|].
  destruct (Hlater 1) as [_ ->]; [lia|reflexivity].
Defined.

(** [test_illegal_seek]: the first pass yields the row, the second raises
    [IOError]. *)
Example test_illegal_seek :
  fst (list_of (__init__ (NoSeekStringIO [nl (py "col1 col2");
                                           nl (py "data1 data2")]) id))
  = Ok [[(py "col1", py "data1"); (py "col2", py "data2")]] /\
  fst (list_of (passes 1
         (__init__ (NoSeekStringIO [nl (py "col1 col2");
                                     nl (py "data1 data2")]) id)))
  = Raise IOError.
Proof. split; vm_compute; reflexivity. Qed.

(** C6, as the code has it.  The first pass does not seek, so on a
    seekable stream whose first line was read before the reader got it the
    first pass starts at the second line, and the second pass, which
    seeks, at the first: the two passes give different rows. *)
Lemma second_pass_differs_on_partly_read_stream :
  fst (list_of (__init__ partly_read_stream id))
  = Ok [[(py "c", py "1"); (py "d", py "2")]] /\
  fst (list_of (passes 1 (__init__ partly_read_stream id)))
  = Ok [[(py "a", py "c"); (py "b", py "d")];
        [(py "a", py "1"); (py "b", py "2")]] /\
  fst (list_of (passes 1 (__init__ partly_read_stream id)))
  <> fst (list_of (__init__ partly_read_stream id)).
Proof.
  repeat split; try (vm_compute; reflexivity).
  vm_compute. discriminate.
Qed.

(** C6, amended.  On a seekable stream that is at its start when the first
    pass begins, every later pass gives the outcome of the first one, which
    is the outcome the significant lines of the whole text determine; and
    when a later pass starts, the column names are the tokens of the
    header line again, whatever names the passes before have added, and
    with distinct names the pass returns one row per significant line after
    the header. *)
Theorem later_passes_repeat_the_first {D} (f : stream)
    (d : list (str * str) -> D) (n : nat) :
  seekable f = true ->
  remaining f = content f ->
  fst (list_of (passes n (__init__ f d))) = fst (list_of (__init__ f d)) /\
  fst (list_of (passes n (__init__ f d)))
  = pass_rows d (significant_lines (content f)) /\
  (forall header rest names,
     List.filter significant (content f) = header :: rest ->
     split_line (strip header) = Ok names ->
     columnnames (snd (__iter__ (passes n (__init__ f d)))) = Some names /\
     (NoDup names ->
      exists rows,
        fst (list_of (passes n (__init__ f d))) = Ok rows /\
        length rows = length rest)).
Proof.
  intros Hsk Hstart.
  assert (Hr : (need_seek (passes n (__init__ f d)) = false \/
                seekable (file (passes n (__init__ f d))) = true) /\
               pass_input (passes n (__init__ f d)) = content f /\
               dict (passes n (__init__ f d)) = d).
  { destruct n as [|n]; [by repeat split; [left|]|].
    remember (passes (S n) (__init__ f d)) as r eqn:Er.
    destruct (passes_after (__init__ f d) (S n)) as (Hn & Hs & Hc & Hd);
      [lia|].
    rewrite <- Er in Hn, Hs, Hc, Hd.
    repeat split; [right; by rewrite Hs| |done].
    unfold pass_input. by rewrite Hn, Hc. }
  destruct Hr as (Hseek & Hin & Hd).
  remember (passes n (__init__ f d)) as r eqn:Er. clear Er.
  assert (Hrows : fst (list_of r)
                  = pass_rows d (significant_lines (content f))).
  { rewrite (list_of_rows r Hseek). by rewrite Hin, Hd. }
  split; [|split; [exact Hrows|]].
  - rewrite Hrows, (list_of_rows (__init__ f d)) by (by left).
    change (pass_input (__init__ f d)) with (remaining f).
    by rewrite Hstart.
  - intros header rest names Hf Hsplit. split.
    + rewrite (iter_columnnames r Hseek), Hin, Hf. by rewrite Hsplit.
    + intros Hnd. rewrite Hrows. unfold significant_lines. rewrite Hf.
      cbn [map pass_rows]. rewrite Hsplit. cbn [mbind outcome_bind bind].
      rewrite decide_True by done.
      destruct (rows_of_total d (map strip rest) names)
        as (rows & -> & Hlen).
      exists rows. by rewrite Hlen, length_map.
Qed.

Lemma later_passes_repeat_the_first_witness :
  fst (list_of (passes 1 (__init__ (StringIO too_many_values) id)))
  = fst (list_of (__init__ (StringIO too_many_values) id)) /\
  columnnames
    (snd (__iter__ (passes 1 (__init__ (StringIO too_many_values) id))))
  = Some [py "col1"; py "extra1"; py "col3"] /\
  exists rows,
    fst (list_of (passes 1 (__init__ (StringIO too_many_values) id)))
    = Ok rows /\
    length rows = 3.
Proof.
  destruct (later_passes_repeat_the_first (StringIO too_many_values) id 1
              eq_refl eq_refl) as (H1 & _ & H3).
  destruct (H3 (nl (py "                col1 extra1 col3"))
              [nl (py "                d1 d2 d3");
               nl (py "                d1 d2 d3 d4 d5 d6");
               nl (py "                d1 d2 d3 d4")]
              [py "col1"; py "extra1"; py "col3"])
    as [Hnames Hrows]; [vm_compute; reflexivity..|].
  split; [exact H1|]. split; [exact Hnames|].
  apply Hrows. apply NoDup_ListNoDup.
  repeat constructor; simpl; intuition discriminate.
Defined.

(** The first pass over [test_too_many_values] leaves six column names;
    the second pass starts again from the three of the header. *)
Example synthetic_names_do_not_carry_over :
  columnnames (passes 1 (__init__ (StringIO too_many_values) id))
  = Some [py "col1"; py "extra1"; py "col3";
          py "extra0"; py "extra2"; py "extra3"] /\
  columnnames
    (snd (__iter__ (passes 1 (__init__ (StringIO too_many_values) id))))
  = Some [py "col1"; py "extra1"; py "col3"].
Proof. split; vm_compute; reflexivity. Qed.

(** C8.  On a well-formed text a pass yields one row per significant line
    after the header.  Lines that are blank after trimming and lines whose
    first character after the leading white space is the comment marker
    take no part: two texts with the same significant lines give the same
    pass, and so does the text with only its significant lines. *)
Theorem one_row_per_significant_line {D} (f : stream)
    (d : list (str * str) -> D) :
  well_formed (remaining f) ->
  (exists rows,
     fst (list_of (__init__ f d)) = Ok rows /\
     S (length rows) = length (List.filter significant (remaining f))) /\
  (forall f',
     List.filter significant (remaining f')
     = List.filter significant (remaining f) ->
     fst (list_of (__init__ f' d)) = fst (list_of (__init__ f d))) /\
  fst (list_of (__init__ (StringIO (List.filter significant (remaining f))) d))
  = fst (list_of (__init__ f d)).
Proof.
  intros Hwf. repeat split.
  - rewrite list_of_rows by (by left).
    apply (pass_rows_well_formed d _ Hwf).
  - intros f' Hf'. rewrite !list_of_rows by (by left).
    unfold significant_lines.
    change (pass_input (__init__ f' d)) with (remaining f').
    change (pass_input (__init__ f d)) with (remaining f).
    by rewrite Hf'.
  - rewrite !list_of_rows by (by left).
    unfold significant_lines.
    change (pass_input (__init__ (StringIO ?l) d)) with l.
    change (pass_input (__init__ f d)) with (remaining f).
    by rewrite filter_significant_idemp.
Qed.

Lemma blanks_and_comments_well_formed : well_formed blanks_and_comments.
Proof.
  exists (nl (py "                1st 2nd 3rd")),
    [nl (py "                more #data #ok");
     nl (py "                " ++ quote (py "#more") ++ py " data #ok")],
    [py "1st"; py "2nd"; py "3rd"].
  split; [vm_compute; reflexivity|]. split; [vm_compute; reflexivity|].
  apply NoDup_ListNoDup. repeat constructor; simpl; intuition discriminate.
Defined.

Lemma one_row_per_significant_line_witness :
  exists rows,
    fst (list_of (__init__ (StringIO blanks_and_comments) id)) = Ok rows /\
    S (length rows)
    = length (List.filter significant blanks_and_comments).
Proof.
  exact (proj1 (one_row_per_significant_line (StringIO blanks_and_comments)
                  id blanks_and_comments_well_formed)).
Defined.

(** C10.  When the lines of a pass hold no significant line, [__iter__]
    itself raises [StopIteration] while it looks for the header, and so
    does the pass: no iterator is returned, not even one without rows. *)
Theorem no_header_stops_in_iter {D} (r : WsvReader D) :
  need_seek r = false \/ seekable (file r) = true ->
  Forall (fun l => significant l = false) (pass_input r) ->
  fst (__iter__ r) = Raise StopIteration /\
  fst (list_of r) = Raise StopIteration /\
  fst (list_of r) <> Ok [].
Proof.
  intros Hseek Hnone. apply filter_significant_nil in Hnone.
  destruct (iter_reads r Hseek) as (f & Hiter & Hf).
  pose proof (read_header_spec (started r f) eq_refl) as Hh. simpl in Hh.
  rewrite Hf, Hnone in Hh.
  unfold list_of. rewrite Hiter, Hh. by repeat split.
Qed.

Lemma no_header_stops_in_iter_witness :
  fst (__iter__ (__init__ (StringIO [nl []; nl (py "  # only a comment");
                                      py "   "]) id))
  = Raise StopIteration /\
  fst (list_of (__init__ (StringIO [nl []; nl (py "  # only a comment");
                                     py "   "]) id))
  = Raise StopIteration /\
  fst (list_of (__init__ (StringIO [nl []; nl (py "  # only a comment");
                                     py "   "]) id))
  <> Ok [].
Proof.
  apply (no_header_stops_in_iter
           (__init__ (StringIO [nl []; nl (py "  # only a comment");
                                 py "   "]) id));
    [by left|].
  repeat constructor.
Defined.

(** * Further properties of the reader *)

(** ** [split_line] reads back what is written *)

Lemma isspace_not_dquote c : isspace c = true -> c <> dquote.
Proof. intros H ->. vm_compute in H. discriminate. Qed.

Lemma bt_chr_cons p c s k : bt (Chr p) (c :: s) k = if p c then k s else None.
Proof. done. Qed.

Lemma bare_char_space c s k : isspace c = true -> bt bare_char (c :: s) k = None.
Proof.
  intros Hc. unfold bare_char. rewrite bt_chr_cons, Hc.
  by rewrite andb_false_r.
Qed.

Lemma bare_char_dquote s k : bt bare_char (dquote :: s) k = None.
Proof. done. Qed.

Lemma bare_char_bare c s k :
  c <> dquote -> isspace c = false -> bt bare_char (c :: s) k = k s.
Proof.
  intros Hq Hs. unfold bare_char. rewrite bt_chr_cons, Hs.
  apply Ascii.eqb_neq in Hq. by rewrite Hq.
Qed.

(** The star of the bare alternative runs over a bare token and stops at
    the white space after it. *)
Lemma star_bare_run k x c s :
  isspace c = true -> k (c :: s) = Some x ->
  forall t n, bare_token t -> length t <= n ->
    star_loop (bt bare_char) k n (t ++ c :: s) = Some x.
Proof.
  intros Hc Hk. induction t as [|a t IH]; intros n Hb Hn.
  - destruct n as [|n]; cbn [star_loop app]; [done|].
    by rewrite bare_char_space.
  - destruct n as [|n]; [simpl in Hn; lia|].
    apply Forall_cons in Hb as [[Ha1 Ha2] Hb].
    cbn [star_loop app]. rewrite bare_char_bare by done.
    rewrite IH; [done|done|simpl in Hn; lia].
Qed.

Lemma quoted_item_dquote_end c s k :
  c <> dquote -> bt quoted_item (dquote :: c :: s) k = None.
Proof.
  intros Hc. apply Ascii.eqb_neq in Hc.
  unfold quoted_item, not_dquote, is_dquote. simpl. by rewrite Hc.
Qed.

Lemma quoted_item_pair s k :
  bt quoted_item (dquote :: dquote :: s) k = k s.
Proof. done. Qed.

Lemma quoted_item_other c s k :
  c <> dquote -> bt quoted_item (c :: s) k = k s.
Proof.
  intros Hc. apply Ascii.eqb_neq in Hc.
  unfold quoted_item, not_dquote. simpl. rewrite Hc. simpl.
  by destruct (k s).
Qed.

(** The star of the quoted alternative runs over the inside of a written
    field and stops at its closing quote. *)
Lemma star_items_run k x c s :
  c <> dquote -> k (dquote :: c :: s) = Some x ->
  forall v n, length (escape v) <= n ->
    star_loop (bt quoted_item) k n (escape v ++ dquote :: c :: s) = Some x.
Proof.
  intros Hc Hk. induction v as [|a v IH]; intros n Hn.
  - destruct n as [|n]; cbn [star_loop app escape]; [done|].
    by rewrite quoted_item_dquote_end.
  - cbn [escape] in Hn |- *. destruct (Ascii.eqb a dquote) eqn:Ea.
    + destruct n as [|n]; [simpl in Hn; lia|].
      cbn [star_loop app]. rewrite quoted_item_pair.
      rewrite IH; [done|simpl in Hn; lia].
    + destruct n as [|n]; [simpl in Hn; lia|].
      apply Ascii.eqb_neq in Ea.
      cbn [star_loop app]. rewrite quoted_item_other by done.
      rewrite IH; [done|simpl in Hn; lia].
Qed.

Lemma bt_star r s k : bt (Star r) s k = star_loop (bt r) k (length s) s.
Proof. done. Qed.

Lemma bt_bare_stops c s k :
  c = dquote \/ isspace c = true -> bt bare (c :: s) k = k (c :: s).
Proof.
  intros Hc. unfold bare. rewrite bt_star. cbn [length star_loop].
  destruct Hc as [->|Hc]; [by rewrite bare_char_dquote|].
  by rewrite bare_char_space.
Qed.

Lemma bt_cat r1 r2 s k :
  bt (Cat r1 r2) s k = bt r1 s (fun s1 => bt r2 s1 k).
Proof. done. Qed.

Lemma bt_alt r1 r2 s k :
  bt (Alt r1 r2) s k
  = match bt r1 s k with Some x => Some x | None => bt r2 s k end.
Proof. done. Qed.

Lemma bt_ws_space c s : isspace c = true -> bt ws (c :: s) Some = Some s.
Proof. intros Hc. unfold ws. by rewrite bt_chr_cons, Hc. Qed.

Lemma bt_ws_dquote s : bt ws (dquote :: s) Some = None.
Proof. done. Qed.

(** Group 1 of [findre] at a written field followed by white space. *)
Lemma bt_group_field tok v c' s :
  written tok v -> isspace c' = true ->
  bt (Alt bare quoted) (tok ++ c' :: s) (fun s1 => bt ws s1 Some) = Some s.
Proof.
  intros Hw Hc'. rewrite bt_alt. destruct Hw as [v Hne Hb|v].
  - unfold bare. rewrite bt_star.
    rewrite (star_bare_run _ s c' s); [done|done|by apply bt_ws_space|done|].
    rewrite length_app. lia.
  - unfold quote. rewrite <- !app_assoc. cbn [app].
    rewrite bt_bare_stops by (by left). rewrite bt_ws_dquote.
    change quoted with (Cat is_dquote (Cat (Star quoted_item) is_dquote)).
    rewrite bt_cat. unfold is_dquote at 1.
    rewrite bt_chr_cons, Ascii.eqb_refl, bt_cat, bt_star.
    rewrite (star_items_run _ s c' s); [done|by apply isspace_not_dquote| |].
    + unfold is_dquote. rewrite bt_chr_cons, Ascii.eqb_refl.
      by apply bt_ws_space.
    + rewrite length_app. lia.
Qed.

(** [findre] at a white space character followed by a written field and
    white space: the match is the field with the two characters around
    it. *)
Lemma re_match_field c tok v c' s :
  isspace c = true -> written tok v -> isspace c' = true ->
  re_match findre (c :: tok ++ c' :: s) = Some s.
Proof.
  intros Hc Hw Hc'. unfold re_match, findre.
  rewrite bt_cat. unfold ws at 1. rewrite bt_chr_cons, Hc, bt_cat.
  by apply (bt_group_field tok v).
Qed.

Lemma re_match_space c c' s :
  isspace c = true -> isspace c' = true ->
  re_match findre (c :: c' :: s) = Some s.
Proof.
  intros Hc Hc'. unfold re_match, findre.
  rewrite bt_cat. unfold ws at 1. rewrite bt_chr_cons, Hc, bt_cat, bt_alt.
  rewrite bt_bare_stops by (by right). by rewrite bt_ws_space.
Qed.

Lemma re_match_short c : re_match findre [c] = None /\ re_match findre [] = None.
Proof.
  split; [|done]. unfold re_match, findre.
  rewrite bt_cat. unfold ws at 1. rewrite bt_chr_cons.
  by destruct (isspace c).
Qed.

Lemma re_search_here pre s rest :
  re_match findre s = Some rest ->
  re_search findre (pre ++ s) (length pre)
  = Some (length pre, length pre + (length s - length rest)).
Proof.
  intros H. unfold re_search. rewrite drop_app_length.
  destruct s; cbn [search_at]; by rewrite H.
Qed.

Lemma split_loop_unfold unq fuel line pos cols :
  split_loop unq (S fuel) line pos cols
  = match re_search findre line pos with
    | None => Ok cols
    | Some (mstart, mend) =>
        columns' ← match slice (S mstart) (mend - 1) line with
                    | [] => Ok cols
                    | _ :: _ =>
                        v ← unq (slice (S mstart) (mend - 1) line);
                        Ok (cols ++ [v])
                    end;
        split_loop unq fuel line (mend - 1) columns'
    end.
Proof. done. Qed.

Lemma written_unquote tok v : written tok v -> unquote tok = Ok v.
Proof.
  intros [v' Hne Hb|v'].
  - apply unquote_bare; [done|]. destruct v' as [|a v']; [done|].
    apply Forall_cons in Hb as [[Ha _] _]. simpl. by intros [= ->].
  - transitivity (Ok (replace_dquotes (escape v')));
      [exact (unquote_quoted (escape v'))|by rewrite replace_dquotes_escape].
Qed.

Lemma written_nonempty tok v : written tok v -> tok <> [].
Proof. by intros [v' Hne _|v']. Qed.

Lemma written_column tok v (cols : list str) :
  written tok v ->
  match tok with
  | [] => Ok cols
  | _ :: _ => v' ← unquote tok; Ok (cols ++ [v'])
  end = Ok (cols ++ [v]).
Proof.
  intros Hw. rewrite (written_unquote tok v Hw).
  destruct tok; [by apply written_nonempty in Hw|done].
Qed.

Lemma split_loop_tail s vs :
  wsv_tail s vs ->
  forall c pre cols fuel,
    isspace c = true -> length s < fuel ->
    split_loop unquote fuel (pre ++ c :: s) (length pre) cols
    = Ok (cols ++ vs).
Proof.
  induction 1 as [|c' s vs Hc' _ IH|tok v c' s vs Hw Hc' _ IH];
    intros c pre cols fuel Hc Hfuel;
    (destruct fuel as [|fuel]; [lia|]); rewrite split_loop_unfold.
  - unfold re_search. rewrite drop_app_length.
    destruct (re_match_short c) as [H1 H2].
    cbn [search_at]. rewrite H1, H2. by rewrite app_nil_r.
  - rewrite (re_search_here pre (c :: c' :: s) s)
      by (by apply re_match_space).
    cbn [length]. unfold slice.
    replace (length pre + (S (S (length s)) - length s) - 1 - S (length pre))
      with 0 by lia.
    rewrite take_0. cbn [mbind outcome_bind bind].
    replace (length pre + (S (S (length s)) - length s) - 1)
      with (length (pre ++ [c])) by (rewrite length_app; simpl; lia).
    replace (pre ++ c :: c' :: s) with ((pre ++ [c]) ++ c' :: s)
      by (by rewrite <- app_assoc).
    apply IH; [done|simpl in Hfuel; lia].
  - rewrite (re_search_here pre (c :: tok ++ c' :: s) s)
      by (by eapply re_match_field).
    assert (Hslice : slice (S (length pre))
              (length pre + (length (c :: tok ++ c' :: s) - length s) - 1)
              (pre ++ c :: tok ++ c' :: s) = tok).
    { unfold slice. cbn [length]. rewrite length_app. cbn [length].
      replace (length pre + (S (length tok + S (length s)) - length s) - 1
               - S (length pre)) with (length tok) by lia.
      replace (pre ++ c :: tok ++ c' :: s) with ((pre ++ [c]) ++ tok ++ c' :: s)
        by (by rewrite <- app_assoc).
      replace (S (length pre)) with (length (pre ++ [c]))
        by (rewrite length_app; simpl; lia).
      by rewrite drop_app_length, take_app_length. }
    rewrite Hslice, (written_column tok v cols Hw).
    cbn [mbind outcome_bind bind].
    replace (length pre + (length (c :: tok ++ c' :: s) - length s) - 1)
      with (length (pre ++ c :: tok)).
    2:{ rewrite !length_app. cbn [length]. rewrite !length_app.
        cbn [length]. lia. }
    replace (pre ++ c :: tok ++ c' :: s) with ((pre ++ c :: tok) ++ c' :: s)
      by (by rewrite <- app_assoc).
    rewrite IH; [by rewrite <- app_assoc|done|].
    rewrite length_app in Hfuel. simpl in Hfuel. lia.
Qed.

Lemma wsv_line_tail line vs : wsv_line line vs -> wsv_tail (line ++ [space]) vs.
Proof.
  induction 1 as [|c line vs Hc _ IH|tok v Hw|tok v c line vs Hw Hc _ IH].
  - apply (tail_space space [] []); [done|constructor].
  - by apply tail_space.
  - apply (tail_field tok v space [] []); [done|done|constructor].
  - rewrite <- app_assoc. by apply tail_field.
Qed.

Lemma split_line_wsv line vs : wsv_line line vs -> split_line line = Ok vs.
Proof.
  intros H. apply wsv_line_tail in H.
  unfold split_line, split_line_with.
  apply (split_loop_tail _ _ H space [] []); [done|].
  cbn [length app]. rewrite !length_app. simpl. lia.
Qed.

(** X1.  A line made of fields with white space between them, and any
    white space before the first and after the last, is split into the
    values the fields write: a value that is not empty and holds neither a
    double quote nor white space may stand as it is, and any value may
    stand between double quotes with its double quotes doubled. *)
Theorem split_line_reads_written_fields (line : str) (vs : list str) :
  wsv_line line vs -> split_line line = Ok vs.
Proof.
  intros H. apply wsv_line_tail in H.
  unfold split_line, split_line_with.
  apply (split_loop_tail (line ++ [space]) vs H space [] []); [done|].
  cbn [length app]. rewrite !length_app. simpl. lia.
Qed.

Lemma split_line_reads_written_fields_witness :
  split_line (py "  " ++ quote [] ++ py "   " ++ quote (py "data1 data2")
              ++ py " data3 ")
  = Ok [[]; py "data1 data2"; py "data3"].
Proof.
  apply split_line_reads_written_fields.
  apply wsv_space; [done|]. apply wsv_space; [done|].
  apply (wsv_field (quote []) [] " "); [apply (written_quoted [])|done|].
  apply wsv_space; [done|]. apply wsv_space; [done|].
  apply (wsv_field (quote (py "data1 data2")) (py "data1 data2") " ");
    [apply (written_quoted (py "data1 data2"))|done|].
  apply (wsv_field (py "data3") (py "data3") " "); [|done|constructor].
  apply written_bare; [done|].
  repeat (constructor; [by split|]). constructor.
Defined.

(** ** Every column comes from a written field *)

Lemma lang_items_escape body :
  lang (Star quoted_item) body -> exists v, body = escape v.
Proof.
  remember (Star quoted_item) as r eqn:Hr. intros H.
  induction H as [| | | | |r' w1 w2 H1 _ _ IH]; try discriminate.
  - by exists [].
  - injection Hr as ->. destruct (IH eq_refl) as [v2 ->].
    apply lang_alt_inv in H1 as [H1|H1].
    + apply lang_chr_inv in H1 as (c & -> & Hc).
      apply negb_true_iff in Hc.
      exists (c :: v2). simpl. by rewrite Hc.
    + apply lang_cat_inv in H1 as (q1 & q2 & -> & Hq1 & Hq2).
      apply lang_is_dquote in Hq1 as ->. apply lang_is_dquote in Hq2 as ->.
      by exists (dquote :: v2).
Qed.

Lemma lang_findre_written w :
  lang findre w ->
  exists c1 g c2, w = c1 :: g ++ [c2] /\
    (g = [] \/ exists v, written g v).
Proof.
  intros H. apply lang_cat_inv in H as (w1 & w' & -> & H1 & H).
  apply lang_cat_inv in H as (g & w2 & -> & Hg & H2).
  apply lang_chr_inv in H1 as (c1 & -> & _).
  apply lang_chr_inv in H2 as (c2 & -> & _).
  exists c1, g, c2. split; [done|].
  apply lang_alt_inv in Hg as [Hg|Hg].
  - apply lang_bare in Hg. destruct g as [|a g]; [by left|right].
    exists (a :: g). by apply written_bare.
  - right. apply lang_cat_inv in Hg as (q1 & w3 & -> & Hq1 & Hg).
    apply lang_cat_inv in Hg as (body & q2 & -> & Hbody & Hq2).
    apply lang_is_dquote in Hq1 as ->. apply lang_is_dquote in Hq2 as ->.
    apply lang_items_escape in Hbody as [v ->].
    exists v. apply written_quoted.
Qed.

Lemma re_search_findre_written line pos ms me :
  re_search findre line pos = Some (ms, me) ->
  pos <= ms /\ ms + 2 <= me /\ me <= length line /\
  (slice (S ms) (me - 1) line = [] \/
   exists v, written (slice (S ms) (me - 1) line) v).
Proof.
  unfold re_search. intros H.
  apply search_at_sound in H as (k & w & Hk & -> & -> & Hw & Ht & Hle).
  apply lang_findre_written in Hw as (c1 & g & c2 & -> & Hg).
  rewrite length_drop in Hk, Hle. cbn [length] in *.
  rewrite length_app in *. cbn [length] in *.
  assert (Hin : pos + k < length line).
  { destruct (decide (pos + k < length line)); [done|].
    rewrite drop_drop, drop_ge in Ht by lia. done. }
  repeat split; try lia.
  assert (slice (S (pos + k)) (pos + k + S (length g + 1) - 1) line = g)
    as ->; [|done].
  unfold slice.
  replace (pos + k + S (length g + 1) - 1 - S (pos + k)) with (length g)
    by lia.
  rewrite drop_drop in Ht.
  replace (S (pos + k)) with (pos + k + 1) by lia.
  rewrite <- drop_drop.
  destruct (drop (pos + k) line) as [|c l]; [done|].
  cbn [take] in Ht. injection Ht as _ Ht. cbn [drop]. rewrite drop_0.
  apply (f_equal (take (length g))) in Ht.
  rewrite take_take, take_app_length in Ht.
  by replace (length g `min` (length g + 1)) with (length g) in Ht by lia.
Qed.

Lemma split_loop_written line : forall fuel pos,
  length line - pos < fuel ->
  exists toks vs, Forall2 written toks vs /\
    forall cols,
      split_loop Ok fuel line pos cols = Ok (cols ++ toks) /\
      split_loop unquote fuel line pos cols = Ok (cols ++ vs).
Proof.
  induction fuel as [|fuel IH]; intros pos Hfuel; [lia|].
  destruct (re_search findre line pos) as [[ms me]|] eqn:E.
  - apply re_search_findre_written in E as Hs.
    destruct Hs as (Hpos & Hlen & Hend & Hshape).
    destruct (IH (me - 1)) as (toks & vs & Hw & Hrun); [lia|].
    destruct Hshape as [Hnil|[v Hv]].
    + exists toks, vs. split; [done|]. intros cols.
      rewrite !split_loop_unfold, E, Hnil. apply Hrun.
    + exists (slice (S ms) (me - 1) line :: toks), (v :: vs).
      split; [by constructor|]. intros cols.
      rewrite !split_loop_unfold, E.
      rewrite (written_column _ v cols Hv).
      destruct (slice (S ms) (me - 1) line) as [|a t] eqn:Et;
        [by apply written_nonempty in Hv|].
      cbn [mbind outcome_bind bind].
      destruct (Hrun (cols ++ [a :: t])) as [-> _].
      destruct (Hrun (cols ++ [v])) as [_ ->].
      by rewrite <- !app_assoc.
  - exists [], []. split; [constructor|]. intros cols.
    rewrite !split_loop_unfold, E. by rewrite app_nil_r.
Qed.

(** X2.  Every column [split_line] returns is the value of a field found
    on the line and written in one of the two ways: a field without
    double quotes and white space stands for itself, and a field between
    double quotes stands for the value whose double quotes it doubles.
    Writing a column again gives back the field it came from. *)
Theorem columns_come_from_written_fields (line : str) :
  exists toks vs,
    unquote_calls line = Ok toks /\
    split_line line = Ok vs /\
    Forall2 written toks vs.
Proof.
  destruct (split_loop_written ([space] ++ line ++ [space])
              (S (length ([space] ++ line ++ [space]))) 0)
    as (toks & vs & Hw & Hrun); [lia|].
  destruct (Hrun []) as [H1 H2].
  exists toks, vs. by repeat split.
Qed.

(** ** [get_line] *)

Lemma lstrip_split l :
  exists a, l = a ++ lstrip l /\ Forall (fun c => isspace c = true) a.
Proof.
  induction l as [|c l (a & Hl & Ha)]; [by exists []|]. simpl.
  destruct (isspace c) eqn:Hc; [|by exists []].
  exists (c :: a). split; [by rewrite Hl at 1|by constructor].
Qed.

Lemma strip_split l :
  exists a b, l = a ++ strip l ++ b /\
    Forall (fun c => isspace c = true) a /\
    Forall (fun c => isspace c = true) b.
Proof.
  destruct (lstrip_split l) as (a & Hl & Ha).
  destruct (lstrip_split (reverse (lstrip l))) as (b & Hr & Hb).
  exists a, (reverse b). repeat split; [|done|by apply Forall_reverse].
  unfold strip, rstrip. rewrite <- reverse_app, <- Hr, reverse_involutive.
  done.
Qed.

Lemma strip_ends l :
  (forall c, head (strip l) = Some c -> isspace c = false) /\
  (forall c, last (strip l) = Some c -> isspace c = false).
Proof.
  split; intros c Hc.
  - rewrite head_strip in Hc. destruct (lstrip l) as [|a t] eqn:E; [done|].
    injection Hc as <-. by apply lstrip_head in E.
  - unfold strip, rstrip in Hc. rewrite last_reverse in Hc.
    destruct (lstrip (reverse (lstrip l))) as [|a t] eqn:E; [done|].
    injection Hc as <-. by apply lstrip_head in E.
Qed.

Lemma get_line_loop_spec ls :
  (exists skipped l rest,
     ls = skipped ++ l :: rest /\
     Forall (fun x => significant x = false) skipped /\
     significant l = true /\
     get_line_loop ls = (Ok (strip l), rest)) \/
  (Forall (fun x => significant x = false) ls /\
   get_line_loop ls = (Raise StopIteration, [])).
Proof.
  induction ls as [|l ls IH]; [right; by split|].
  rewrite get_line_loop_step. destruct (significant l) eqn:Hl.
  - left. exists [], l, ls. by repeat split.
  - destruct IH as [(skipped & l' & rest & -> & Hsk & Hl' & Hgl)|[Hall Hgl]].
    + left. exists (l :: skipped), l', rest.
      repeat split; [by constructor|done|done].
    + right. split; [by constructor|done].
Qed.

Lemma significant_strip l :
  significant l = true -> strip l <> [] /\ head (strip l) <> Some hash.
Proof.
  unfold significant. rewrite <- head_strip.
  destruct (strip l) as [|c t]; [done|]. simpl. intros H.
  split; [done|]. intros [= ->]. done.
Qed.

(** X4.  [get_line] reads the lines up to the first significant one and
    returns that line without the white space at its two ends: the result
    is not empty, does not start with the comment marker, and neither
    starts nor ends with white space; the lines read before it are blank or
    comments.  When no significant line is left it raises [StopIteration]
    and the stream is at its end. *)
Theorem get_line_returns_first_significant {D} (r : WsvReader D) :
  fileiter r = true ->
  (exists skipped l rest a b,
     remaining (file r) = skipped ++ l :: rest /\
     Forall (fun x => significant x = false) skipped /\
     get_line r = (Ok (strip l), set_remaining r rest) /\
     l = a ++ strip l ++ b /\
     Forall (fun c => isspace c = true) a /\
     Forall (fun c => isspace c = true) b /\
     strip l <> [] /\
     head (strip l) <> Some hash /\
     (forall c, head (strip l) = Some c -> isspace c = false) /\
     (forall c, last (strip l) = Some c -> isspace c = false)) \/
  (Forall (fun x => significant x = false) (remaining (file r)) /\
   get_line r = (Raise StopIteration, set_remaining r [])).
Proof.
  intros Hfi. unfold get_line. rewrite Hfi.
  destruct (get_line_loop_spec (remaining (file r)))
    as [(skipped & l & rest & Hls & Hsk & Hl & ->)|[Hall ->]];
    [left|by right].
  destruct (strip_split l) as (a & b & Hab & Ha & Hb).
  destruct (significant_strip l Hl) as [Hne Hhash].
  destruct (strip_ends l) as [Hhead Hlast].
  exists skipped, l, rest, a, b. by repeat split.
Qed.

Lemma get_line_returns_first_significant_witness :
  (exists skipped l rest a b,
     [nl []; nl (py "# c"); nl (py "  a b ")] = skipped ++ l :: rest /\
     Forall (fun x => significant x = false) skipped /\
     get_line (reading id [] [nl []; nl (py "# c"); nl (py "  a b ")])
     = (Ok (strip l),
        set_remaining
          (reading id [] [nl []; nl (py "# c"); nl (py "  a b ")]) rest) /\
     l = a ++ strip l ++ b /\
     Forall (fun c => isspace c = true) a /\
     Forall (fun c => isspace c = true) b /\
     strip l <> [] /\
     head (strip l) <> Some hash /\
     (forall c, head (strip l) = Some c -> isspace c = false) /\
     (forall c, last (strip l) = Some c -> isspace c = false)) \/
  (Forall (fun x => significant x = false)
     [nl []; nl (py "# c"); nl (py "  a b ")] /\
   get_line (reading id [] [nl []; nl (py "# c"); nl (py "  a b ")])
   = (Raise StopIteration,
      set_remaining
        (reading id [] [nl []; nl (py "# c"); nl (py "  a b ")]) [])).
Proof.
  exact (get_line_returns_first_significant
           (reading id [] [nl []; nl (py "# c"); nl (py "  a b ")]) eq_refl).
Defined.

(** ** The end of a pass *)

Section Exhaustion.
Context {D : Type}.
Implicit Types (r : WsvReader D).

Lemma get_line_loop_raise ls e rest :
  get_line_loop ls = (Raise e, rest) -> e = StopIteration /\ rest = [].
Proof.
  destruct (get_line_loop_spec ls)
    as [(skipped & l & rest' & _ & _ & _ & ->)|[_ ->]]; [done|].
  by intros [= <- <-].
Qed.

Lemma next_raise_inv r e r1 :
  __next__ r = (Raise e, r1) ->
  columnnames r1 = columnnames r /\
  (e = StopIteration -> fileiter r = true /\ r1 = set_remaining r []).
Proof.
  unfold __next__, get_line. destruct (fileiter r) eqn:Hfi.
  - destruct (get_line_loop (remaining (file r))) as [o rest] eqn:Hgl.
    destruct o as [line|e'|].
    + destruct (split_line_total line) as [columns ->]. simpl.
      destruct (columnnames r) as [names|] eqn:Hcn.
      * destruct (extend_columnnames_spec (length columns) names)
          as (added & -> & _). done.
      * intros [= <- <-]. simpl. by split.
    + apply get_line_loop_raise in Hgl as [-> ->].
      intros [= <- <-]. by split.
    + done.
  - intros [= <- <-]. by split.
Qed.

Lemma set_remaining_nil_idemp r :
  set_remaining (set_remaining r []) [] = set_remaining r [].
Proof. done. Qed.

Lemma next_stop_again r r1 :
  __next__ r = (Raise StopIteration, r1) ->
  __next__ r1 = (Raise StopIteration, r1).
Proof.
  intros H. apply next_raise_inv in H as [_ H].
  destruct H as [Hfi ->]; [done|].
  rewrite next_at_end; done.
Qed.

Lemma collect_ok_exhausted : forall fuel r acc rows r',
  collect fuel r acc = (Ok rows, r') ->
  __next__ r' = (Raise StopIteration, r').
Proof.
  induction fuel as [|fuel IH]; intros r acc rows r' H; [done|].
  cbn [collect] in H. destruct (__next__ r) as [o r1] eqn:Hn.
  destruct o as [row|e|]; [by eapply IH| |done].
  destruct e; try done. injection H as _ <-. by eapply next_stop_again.
Qed.

End Exhaustion.

(** X5.  Once [__next__] has raised [StopIteration] it raises it again on
    every later call and changes nothing; and after a pass that returned
    its rows the reader is in that state: the rows are all there were. *)
Theorem stop_iteration_is_final {D} (r r1 : WsvReader D) :
  (__next__ r = (Raise StopIteration, r1) ->
   forall k, __next__ (nexts k r1) = (Raise StopIteration, r1)) /\
  (forall rows, list_of r = (Ok rows, r1) ->
   forall k, __next__ (nexts k r1) = (Raise StopIteration, r1)).
Proof.
  assert (Hs : __next__ r1 = (Raise StopIteration, r1) ->
               forall k, __next__ (nexts k r1) = (Raise StopIteration, r1)).
  { intros H k. induction k as [|k IH]; [done|].
    change (nexts (S k) r1) with (snd (__next__ (nexts k r1))).
    by rewrite IH. }
  split.
  - intros H. apply Hs. by eapply next_stop_again.
  - intros rows H. apply Hs. unfold list_of in H.
    destruct (__iter__ r) as [o r0]. destruct o as [[]|e|]; [|done|done].
    by eapply collect_ok_exhausted.
Qed.

Lemma stop_iteration_is_final_witness :
  __next__ (nexts 3 (set_remaining (reading id [py "a"] []) []))
  = (Raise StopIteration, set_remaining (reading id [py "a"] []) []).
Proof.
  apply (proj1 (stop_iteration_is_final (reading id [py "a"] [])
                  (set_remaining (reading id [py "a"] []) []))).
  reflexivity.
Defined.

(** ** The rows of a pass *)






(** ** Starting again in the middle of a pass *)

Section Restart.
Context {D : Type}.
Implicit Types (r : WsvReader D).

Lemma nexts_same_object r k : same_object r (nexts k r).
Proof.
  induction k as [|k IH]; [apply same_object_refl|].
  change (nexts (S k) r) with (snd (__next__ (nexts k r))).
  eapply same_object_trans; [exact IH|apply next_same_object].
Qed.

End Restart.

(** X7.  A pass can be left at any point.  After [__iter__] and any
    number of calls of [__next__] on a stream that was at its start, a new
    pass over a seekable stream gives the whole outcome of a first pass
    again, and a new pass over a stream that cannot seek raises [IOError]
    and leaves the reader as it is. *)
Theorem new_pass_after_partial_pass {D} (f : stream)
    (d : list (str * str) -> D) (k : nat) :
  remaining f = content f ->
  (seekable f = true ->
   fst (list_of (nexts k (snd (__iter__ (__init__ f d)))))
   = fst (list_of (__init__ f d))) /\
  (seekable f = false ->
   list_of (nexts k (snd (__iter__ (__init__ f d))))
   = (Raise IOError, nexts k (snd (__iter__ (__init__ f d))))).
Proof.
  intros Hstart.
  destruct (iter_after (__init__ f d)) as (Hn & Hs & Hc & Hd).
  destruct (nexts_same_object (snd (__iter__ (__init__ f d))) k)
    as (Hc' & Hs' & Hd' & Hn' & _).
  remember (nexts k (snd (__iter__ (__init__ f d)))) as r eqn:Hr.
  rewrite Hn in Hn'. rewrite Hs in Hs'. rewrite Hc in Hc'. rewrite Hd in Hd'.
  cbn [__init__ file dict content seekable] in Hs', Hc', Hd'.
  split; intros Hsk.
  - rewrite (list_of_rows r) by (right; by rewrite Hs').
    rewrite (list_of_rows (__init__ f d)) by (by left).
    change (pass_input (__init__ f d)) with (remaining f).
    change (dict (__init__ f d)) with d.
    unfold pass_input. rewrite Hn', Hc', Hd'.
    by rewrite Hstart.
  - unfold list_of. rewrite iter_illegal_seek; [done|done|].
    by rewrite Hs'.
Qed.

Lemma new_pass_after_partial_pass_witness :
  fst (list_of (nexts 1 (snd (__iter__
         (__init__ (StringIO too_many_values) id)))))
  = fst (list_of (__init__ (StringIO too_many_values) id)) /\
  list_of (nexts 1 (snd (__iter__
         (__init__ (NoSeekStringIO too_many_values) id))))
  = (Raise IOError,
     nexts 1 (snd (__iter__ (__init__ (NoSeekStringIO too_many_values) id)))).
Proof.
  split.
  - apply (proj1 (new_pass_after_partial_pass (StringIO too_many_values)
                    id 1 eq_refl)).
    reflexivity.
  - apply (proj2 (new_pass_after_partial_pass (NoSeekStringIO too_many_values)
                    id 1 eq_refl)).
    reflexivity.
Defined.

(** ** The column names during a pass *)

Section Names.
Context {D : Type}.
Implicit Types (r : WsvReader D).

Lemma next_ok_inv r row r1 :
  __next__ r = (Ok row, r1) ->
  exists names columns added,
    columnnames r = Some names /\
    row = dict r (zip (names ++ added) columns) /\
    columnnames r1 = Some (names ++ added) /\
    dict r1 = dict r /\
    length (names ++ added) = length names `max` length columns /\
    (NoDup names -> NoDup (names ++ added)).
Proof.
  intros H. destruct (fileiter r) eqn:Hfi;
    [|by unfold __next__, get_line in H; rewrite Hfi in H].
  destruct (get_line_loop (remaining (file r))) as [o rest] eqn:Hgl.
  destruct o as [line|e|];
    [|by unfold __next__, get_line in H; rewrite Hfi, Hgl in H..].
  destruct (columnnames r) as [names|] eqn:Hcn.
  - destruct (next_on_line r names line rest Hfi Hcn Hgl)
      as (columns & added & _ & _ & Hlen & _ & Hnd & Hnext).
    rewrite Hnext in H. injection H as <- <-.
    exists names, columns, added. by repeat split.
  - unfold __next__, get_line in H. rewrite Hfi, Hgl in H.
    destruct (split_line_total line) as [columns Hc]. rewrite Hc in H.
    simpl in H. by rewrite Hcn in H.
Qed.

Lemma next_columnnames r names :
  columnnames r = Some names ->
  exists added,
    columnnames (snd (__next__ r)) = Some (names ++ added) /\
    (NoDup names -> NoDup (names ++ added)).
Proof.
  intros Hcn. destruct (__next__ r) as [o r1] eqn:Hn.
  destruct o as [row|e|].
  - apply next_ok_inv in Hn
      as (names' & columns & added & Hcn' & _ & Hr1 & _ & _ & Hnd).
    rewrite Hcn in Hcn'. injection Hcn' as <-. by exists added.
  - apply next_raise_inv in Hn as [Hr1 _].
    exists []. simpl. rewrite Hr1, Hcn, app_nil_r. done.
  - exfalso. unfold __next__, get_line in Hn.
    destruct (fileiter r); [|done].
    destruct (get_line_loop (remaining (file r))) as [o rest] eqn:Hgl.
    destruct o as [line|e|]; [|done|].
    + destruct (split_line_total line) as [columns Hc]. rewrite Hc in Hn.
      simpl in Hn. rewrite Hcn in Hn.
      destruct (extend_columnnames_spec (length columns) names)
        as (added & Hext & _).
      by rewrite Hext in Hn.
    + destruct (get_line_loop_spec (remaining (file r)))
        as [(? & ? & ? & _ & _ & _ & Hg)|[_ Hg]];
        rewrite Hg in Hgl; done.
Qed.

Lemma collect_columnnames : forall fuel r acc names,
  columnnames r = Some names ->
  exists added,
    columnnames (snd (collect fuel r acc)) = Some (names ++ added) /\
    (NoDup names -> NoDup (names ++ added)).
Proof.
  induction fuel as [|fuel IH]; intros r acc names Hcn.
  - exists []. simpl. by rewrite app_nil_r.
  - destruct (next_columnnames r names Hcn) as (added1 & Hcn1 & Hnd1).
    cbn [collect]. destruct (__next__ r) as [o r1]. simpl in Hcn1.
    destruct o as [row|e|]; [|exists added1; by destruct e|by exists added1].
    destruct (IH r1 (acc ++ [row]) _ Hcn1) as (added2 & Hcn2 & Hnd2).
    exists (added1 ++ added2). rewrite app_assoc. auto.
Qed.

End Names.

(** X8.  During a pass the list of column names only grows at its end:
    after a call of [__next__], and after any number of them, it is the
    list from before followed by the names added since, and when the names
    were distinct before they are still distinct. *)
Theorem column_names_only_grow {D} (r : WsvReader D) (names : list str) :
  columnnames r = Some names ->
  (exists added,
     columnnames (snd (__next__ r)) = Some (names ++ added) /\
     (NoDup names -> NoDup (names ++ added))) /\
  (forall fuel acc, exists added,
     columnnames (snd (collect fuel r acc)) = Some (names ++ added) /\
     (NoDup names -> NoDup (names ++ added))).
Proof.
  intros Hcn. split; [by apply next_columnnames|].
  intros fuel acc. by apply collect_columnnames.
Qed.

Lemma column_names_only_grow_witness :
  (exists added,
     columnnames (snd (__next__ (reading id [py "a"] [nl (py "1 2 3")])))
     = Some ([py "a"] ++ added) /\
     (NoDup [py "a"] -> NoDup ([py "a"] ++ added))) /\
  (forall fuel acc, exists added,
     columnnames (snd (collect fuel (reading id [py "a"] [nl (py "1 2 3")])
                         acc))
     = Some ([py "a"] ++ added) /\
     (NoDup [py "a"] -> NoDup ([py "a"] ++ added))).
Proof.
  exact (column_names_only_grow (reading id [py "a"] [nl (py "1 2 3")])
           [py "a"] eq_refl).
Defined.

(** ** How many column names a pass leaves *)






(** ** The numbering of the synthetic names *)

Lemma extras_length i : length (extras i) = i.
Proof. unfold extras. by rewrite length_fmap, length_seq. Qed.

Lemma extras_elem j i : extra_columnname j ∈ extras i <-> j < i.
Proof.
  unfold extras. rewrite list_elem_of_fmap. split.
  - intros (k & Hk & Hin). apply extra_columnname_inj in Hk as ->.
    apply elem_of_seq in Hin. lia.
  - intros Hj. exists j. split; [done|]. apply elem_of_seq. lia.
Qed.

Lemma fills_extras base :
  (forall j, extra_columnname j ∉ base) ->
  forall added i,
    fills_smallest (base ++ extras i) added ->
    added = extra_columnname <$> seq i (length added).
Proof.
  intros Hbase. induction added as [|a added IH]; intros i H; [done|].
  inversion H as [|names k added' [Hk1 Hk2] Hrest]; subst.
  assert (k = i) as ->.
  { destruct (decide (k < i)) as [Hlt|Hge].
    - exfalso. apply Hk1. apply elem_of_app. right. by apply extras_elem.
    - destruct (decide (i < k)) as [Hlt|Hge']; [|lia].
      exfalso. specialize (Hk2 i Hlt).
      apply elem_of_app in Hk2 as [Hin|Hin]; [by apply (Hbase i)|].
      apply extras_elem in Hin. lia. }
  cbn [length seq fmap list_fmap]. f_equal.
  apply IH. rewrite <- app_assoc in Hrest.
  unfold extras. rewrite seq_S, fmap_app. exact Hrest.
Qed.

(** X10.  When the names the header gave hold no synthetic name, the
    synthetic names are numbered in order from zero: a list made of such
    names followed by [extra0] to [extra<i-1>] is extended, for a row of
    [n] columns, to the same names followed by [extra0] up to the name
    that brings the list to [n] names. *)
Theorem synthetic_names_count_from_zero (base : list str) (i n : nat) :
  (forall j, extra_columnname j ∉ base) ->
  extend_columnnames n (base ++ extras i)
  = Ok (base ++ extras (i `max` (n - length base))).
Proof.
  intros Hbase.
  destruct (extend_columnnames_spec n (base ++ extras i))
    as (added & -> & Hlen & Hfill & _).
  apply (fills_extras base Hbase) in Hfill.
  rewrite !length_app, extras_length in Hlen.
  f_equal. rewrite <- app_assoc. f_equal.
  rewrite Hfill. unfold extras. rewrite <- fmap_app. f_equal.
  replace (i `max` (n - length base)) with (i + length added) by lia.
  by rewrite seq_app.
Qed.

Lemma synthetic_names_count_from_zero_witness :
  extend_columnnames 5 ([py "column_name1"; py "column_name2";
                         py "optional_column"] ++ extras 0)
  = Ok ([py "column_name1"; py "column_name2"; py "optional_column"]
        ++ extras (0 `max` (5 - 3))).
Proof.
  apply (synthetic_names_count_from_zero
           [py "column_name1"; py "column_name2"; py "optional_column"] 0 5).
  intros j Hj.
  apply elem_of_cons in Hj as [Hj|Hj]; [discriminate Hj|].
  apply elem_of_cons in Hj as [Hj|Hj]; [discriminate Hj|].
  apply elem_of_cons in Hj as [Hj|Hj]; [discriminate Hj|].
  by apply elem_of_nil in Hj.
Defined.

(** ** Reading back a written text *)

Lemma wsv_write_line vs : wsv_line (write_line vs) vs.
Proof.
  induction vs as [|v vs IH]; [constructor|]. cbn [write_line].
  destruct vs as [|v2 vs]; [apply wsv_last, written_quoted|].
  apply wsv_field; [apply written_quoted|done|exact IH].
Qed.

Lemma write_line_ends vs :
  vs <> [] -> exists m, write_line vs = dquote :: m ++ [dquote].
Proof.
  induction vs as [|v vs IH]; [done|]. intros _. cbn [write_line].
  destruct vs as [|v2 vs]; [by exists (escape v)|].
  destruct IH as [m Hm]; [done|]. rewrite Hm.
  exists (escape v ++ [dquote] ++ space :: dquote :: m).
  unfold quote. cbn [app]. by rewrite <- !app_assoc.
Qed.

Lemma strip_trimmed a m z c :
  isspace a = false -> isspace z = false -> isspace c = true ->
  strip (a :: m ++ [z] ++ [c]) = a :: m ++ [z].
Proof.
  intros Ha Hz Hc. unfold strip. cbn [lstrip]. rewrite Ha.
  unfold rstrip.
  replace (a :: m ++ [z] ++ [c]) with (((a :: m) ++ [z]) ++ [c])
    by (cbn [app]; by rewrite <- app_assoc).
  rewrite !reverse_snoc. cbn [lstrip]. rewrite Hc, Hz.
  by rewrite reverse_cons, reverse_involutive.
Qed.

Lemma strip_write_row vs : vs <> [] -> strip (write_row vs) = write_line vs.
Proof.
  intros Hne. destruct (write_line_ends vs Hne) as [m Hm].
  unfold write_row, nl. rewrite Hm.
  replace ((dquote :: m ++ [dquote]) ++ [ascii_of_nat 10])
    with (dquote :: m ++ [dquote] ++ [ascii_of_nat 10])
    by (cbn [app]; by rewrite <- app_assoc).
  by apply strip_trimmed.
Qed.

Lemma significant_write_row vs : vs <> [] -> significant (write_row vs) = true.
Proof.
  intros Hne. destruct (write_line_ends vs Hne) as [m Hm].
  unfold write_row, nl, significant. by rewrite Hm.
Qed.

Lemma significant_lines_written rows :
  Forall (fun row => row <> []) rows ->
  significant_lines (map write_row rows) = map write_line rows.
Proof.
  unfold significant_lines.
  induction 1 as [|row rows Hrow _ IH]; [done|].
  cbn [map List.filter]. rewrite significant_write_row by done.
  cbn [map]. by rewrite strip_write_row, IH.
Qed.

Lemma extend_not_needed n names :
  n <= length names -> extend_columnnames n names = Ok names.
Proof.
  intros Hn. unfold extend_columnnames.
  destruct n; cbn [extend_loop]; by rewrite decide_False by lia.
Qed.

Lemma rows_of_written {D} (d : list (str * str) -> D) names rows :
  Forall (fun row => length row <= length names) rows ->
  rows_of d names (map write_line rows)
  = Ok (map (fun row => d (zip names row)) rows).
Proof.
  induction 1 as [|row rows Hrow _ IH]; [done|].
  cbn [map rows_of]. rewrite (split_line_wsv _ row (wsv_write_line row)).
  cbn [mbind outcome_bind bind]. rewrite extend_not_needed by done.
  cbn [mbind outcome_bind bind]. by rewrite IH.
Qed.

Lemma text_lines_nl l rest :
  newline ∉ l ->
  text_lines (l ++ newline :: rest) = (l ++ [newline]) :: text_lines rest.
Proof.
  induction l as [|c l IH]; intros Hl; [done|].
  apply not_elem_of_cons in Hl as [Hc Hl].
  cbn [app text_lines]. rewrite IH by done.
  assert (Ascii.eqb c newline = false) as ->; [|done].
  apply Ascii.eqb_neq. by intros ->.
Qed.

Lemma text_lines_rows ls :
  Forall (fun l => newline ∉ l) ls ->
  text_lines (concat (map nl ls)) = map nl ls.
Proof.
  induction 1 as [|l ls Hl _ IH]; [done|].
  cbn [map concat]. unfold nl at 1. rewrite <- app_assoc. cbn [app].
  by rewrite (text_lines_nl l _ Hl), IH.
Qed.

Lemma no_newline_check v :
  forallb (fun c => negb (Ascii.eqb c newline)) v = true -> newline ∉ v.
Proof.
  induction v as [|c v IH]; [intros _; apply not_elem_of_nil|].
  cbn [forallb]. intros [Hc Hv]%andb_true_iff.
  apply not_elem_of_cons. split; [|by apply IH].
  apply negb_true_iff, Ascii.eqb_neq in Hc. intros Heq. by apply Hc.
Qed.

Lemma escape_no_newline v : newline ∉ v -> newline ∉ escape v.
Proof.
  induction v as [|c v IH]; [done|]. intros Hv.
  apply not_elem_of_cons in Hv as [Hc Hv]. cbn [escape].
  destruct (Ascii.eqb c dquote);
    repeat (apply not_elem_of_cons; split; [done|]); by apply IH.
Qed.

Lemma quote_no_newline s : newline ∉ s -> newline ∉ quote s.
Proof.
  intros Hs. unfold quote. cbn [app].
  apply not_elem_of_cons. split; [done|].
  apply not_elem_of_app. split; [done|].
  apply not_elem_of_cons. split; [done|apply not_elem_of_nil].
Qed.

Lemma write_line_no_newline vs :
  Forall (fun v => newline ∉ v) vs -> newline ∉ write_line vs.
Proof.
  induction 1 as [|v vs Hv _ IH]; [apply not_elem_of_nil|].
  cbn [write_line].
  destruct vs as [|v2 vs]; [by apply quote_no_newline, escape_no_newline|].
  apply not_elem_of_app. split;
    [by apply quote_no_newline, escape_no_newline|].
  apply not_elem_of_cons. by split.
Qed.

(** X11.  A text written one row per line, every value between double
    quotes with its double quotes doubled, one space between two values
    and a newline after each row, is read back as it was written: with a
    header of distinct names, the pass over the [StringIO] of that text
    returns for every row the names paired with the values of the row.
    The values hold no newline, since a newline ends a line of the text
    also inside double quotes; rows are not empty and not longer than the
    header. *)
Theorem written_text_reads_back {D} (d : list (str * str) -> D)
    (names : list str) (rows : list (list str)) :
  names <> [] ->
  NoDup names ->
  Forall (fun row => row <> [] /\ length row <= length names) rows ->
  Forall (Forall (fun v => newline ∉ v)) (names :: rows) ->
  fst (list_of (__init__
         (StringIO (text_lines (concat (map write_row (names :: rows))))) d))
  = Ok (map (fun row => d (zip names row)) rows).
Proof.
  intros Hne Hnd Hrows Hnl.
  assert (Hlines : text_lines (concat (map write_row (names :: rows)))
                   = map write_row (names :: rows)).
  { change write_row with (fun vs => nl (write_line vs)).
    rewrite <- (map_map write_line nl). apply text_lines_rows.
    apply Forall_map. eapply Forall_impl; [exact Hnl|].
    intros vs. apply write_line_no_newline. }
  rewrite Hlines, list_of_rows by (by left).
  change (pass_input (__init__ (StringIO ?l) d)) with l.
  change (dict (__init__ (StringIO ?l) d)) with d.
  rewrite significant_lines_written.
  - cbn [map pass_rows].
    rewrite (split_line_wsv _ names (wsv_write_line names)).
    cbn [mbind outcome_bind bind]. rewrite decide_True by done.
    apply rows_of_written. eapply Forall_impl; [exact Hrows|].
    by intros row [_ H].
  - constructor; [done|]. eapply Forall_impl; [exact Hrows|].
    by intros row [H _].
Qed.

Lemma written_text_reads_back_witness :
  fst (list_of (__init__
         (StringIO (text_lines (concat (map write_row
            ([py "1st"; py "2nd column"]
             :: [[[]; quote (py "special") ++ py " data"];
                 [py "only first"]]))))) id))
  = Ok (map (fun row => id (zip [py "1st"; py "2nd column"] row))
          [[[]; quote (py "special") ++ py " data"]; [py "only first"]]).
Proof.
  apply (written_text_reads_back id [py "1st"; py "2nd column"]
           [[[]; quote (py "special") ++ py " data"]; [py "only first"]]).
  - discriminate.
  - apply NoDup_ListNoDup.
    repeat constructor; simpl; intuition discriminate.
  - repeat constructor; simpl; (discriminate || lia).
  - repeat (first [apply no_newline_check; reflexivity | constructor]).
Defined.

(** A value with a newline is outside X11: written between double quotes
    it makes two lines of the text, and neither has a column. *)
Example newline_in_a_value_splits_the_line :
  text_lines (concat (map write_row [[py "a"]; [[ "x"; newline; "y" ]]]))
  = [nl (quote (py "a")); [dquote; "x"; newline]; [ "y"; dquote; newline ]] /\
  fst (list_of (__init__
         (StringIO (text_lines
            (concat (map write_row [[py "a"]; [[ "x"; newline; "y" ]]])))) id))
  = Ok [[]; []].
Proof. split; vm_compute; reflexivity. Qed.

(** ** Blank lines and the outcomes of a pass *)

Lemma wsv_spaces line :
  Forall (fun c => isspace c = true) line -> wsv_line line [].
Proof.
  induction 1 as [|c line Hc _ IH]; [constructor|by apply wsv_space].
Qed.

(** X12.  A line of white space only, the empty line included, has no
    column: [split_line] returns the empty list. *)
Theorem blank_line_has_no_column (line : str) :
  Forall (fun c => isspace c = true) line -> split_line line = Ok [].
Proof. intros H. by apply split_line_wsv, wsv_spaces. Qed.

Lemma blank_line_has_no_column_witness :
  split_line [space; ascii_of_nat 9; space] = Ok [].
Proof.
  apply blank_line_has_no_column. by repeat constructor.
Defined.

(** X13.  A pass ends, and in one of four ways: it returns its rows, or
    it raises [StopIteration] or [ValueError] when it starts, or it raises
    [IOError] when it starts, which happens exactly when the reader has
    to seek and the stream cannot.  It never raises [AssertionError],
    [IndexError] or [AttributeError]. *)
Theorem pass_outcomes {D} (r : WsvReader D) :
  (fst (list_of r) = Raise IOError <->
   need_seek r = true /\ seekable (file r) = false) /\
  ((exists rows, fst (list_of r) = Ok rows) \/
   fst (list_of r) = Raise StopIteration \/
   fst (list_of r) = Raise ValueError \/
   fst (list_of r) = Raise IOError).
Proof.
  destruct (need_seek r) eqn:Hns; [destruct (seekable (file r)) eqn:Hsk|].
  - rewrite list_of_rows by (by right).
    destruct (pass_rows_cases (dict r) (significant_lines (pass_input r)))
      as [->|[->|(rows & -> & _)]].
    + split; [split; [done|by intros [_ ?]]|auto].
    + split; [split; [done|by intros [_ ?]]|auto].
    + split; [split; [done|by intros [_ ?]]|eauto].
  - unfold list_of. rewrite iter_illegal_seek by done. simpl.
    split; [done|auto].
  - rewrite list_of_rows by (by left).
    destruct (pass_rows_cases (dict r) (significant_lines (pass_input r)))
      as [->|[->|(rows & -> & _)]].
    + split; [split; [done|by intros [? _]]|auto].
    + split; [split; [done|by intros [? _]]|auto].
    + split; [split; [done|by intros [? _]]|eauto].
Qed.
